(** * config-formatter: key ordering, comment-aware sorting and value
    normalisation of YAML node trees

    Shallow embedding of the tree-rewriting core of config-formatter:
    - [Yaml]: the [yaml.Node] fields the formatters read or write;
    - [GoSort]: Go's [sort.SliceStable] (insertion-sorted blocks of 20,
      then [symMerge] with [rotate]), which the sorters call with a
      comparator that is not a strict weak order;
    - [StrConv]: the parts of Go's [strconv] used by [isNumericLike];
    - [DockerCompose]: [src/unnamed/part_001] (formatNodeWithContext,
      sortMappingNode, addServiceSpacing, normalizeEnvironment,
      normalizePorts, shouldQuoteValue, getKeyOrder);
    - [Traefik]: [src/modules/traefik/traefik.go] (formatNode,
      sortMappingNode, getKeyOrder).

    Go pointers are modelled by values: the parser builds a tree with no
    sharing, and every mutation in the formatters goes through the unique
    path to the node, so rebuilding the node on the way back up is the
    same as mutating it in place. A Go panic (index out of range on a
    mapping with an odd number of children) is [None]. *)

From Stdlib Require Import String Ascii List Bool Arith Lia ZArith NArith.
From stdpp Require Import base list gmap strings.

Open Scope string_scope.
Local Set Warnings "-register-all".

(* ================================================================= *)
(** ** The node tree of gopkg.in/yaml.v3 *)
(* ================================================================= *)

Module Yaml.

(** [yaml.Kind]. *)
Inductive NodeKind : Type :=
| DocumentNode | SequenceNode | MappingNode | ScalarNode | AliasNode.

Definition NodeKind_eqb (a b : NodeKind) : bool :=
  match a, b with
  | DocumentNode, DocumentNode | SequenceNode, SequenceNode
  | MappingNode, MappingNode | ScalarNode, ScalarNode
  | AliasNode, AliasNode => true
  | _, _ => false
  end.

(** [yaml.Style] is a bit set; the formatters only write 0 and
    [DoubleQuotedStyle]. *)
Definition Style := N.
Definition TaggedStyle : Style := 1%N.
Definition DoubleQuotedStyle : Style := 2%N.
Definition SingleQuotedStyle : Style := 4%N.

(** The fields of [yaml.Node] the formatters read or write (Anchor,
    Alias, Line and Column are never touched). *)
Inductive Node : Type := mkNode {
  Kind : NodeKind;
  NStyle : Style;
  Tag : string;
  Value : string;
  HeadComment : string;
  LineComment : string;
  FootComment : string;
  Content : list Node
}.

Definition set_Content (n : Node) (c : list Node) : Node :=
  mkNode (Kind n) (NStyle n) (Tag n) (Value n) (HeadComment n)
    (LineComment n) (FootComment n) c.

Definition set_HeadComment (n : Node) (h : string) : Node :=
  mkNode (Kind n) (NStyle n) (Tag n) (Value n) h
    (LineComment n) (FootComment n) (Content n).

(** A node built by a Go composite literal [&yaml.Node{...}]: the
    fields not listed are zero. *)
Definition lit (k : NodeKind) (tag v : string) (st : Style) (c : list Node) : Node :=
  mkNode k st tag v "" "" "" c.

(** A mapping's children, read two at a time as the loops
    [for i := 0; i < len(node.Content); i += 2] do; an odd count makes
    [node.Content[i+1]] panic. *)
Fixpoint pairs_of (c : list Node) : option (list (Node * Node)) :=
  match c with
  | [] => Some []
  | [_] => None
  | k :: v :: rest =>
      match pairs_of rest with
      | Some ps => Some ((k, v) :: ps)
      | None => None
      end
  end.

Fixpoint unpairs (ps : list (Node * Node)) : list Node :=
  match ps with
  | [] => []
  | (k, v) :: rest => k :: v :: unpairs rest
  end.

End Yaml.
Import Yaml.

(* ================================================================= *)
(** ** Go's sort.SliceStable *)
(* ================================================================= *)

(** [sort.SliceStable(x, less)] runs [stable_func] of Go's
    [sort/zsortfunc.go] on the slice, with [Less(i, j)] reading the
    current contents of the slice and [Swap(i, j)] exchanging two
    elements. Loops are written with a fuel argument that is never the
    limiting factor on the inputs the callers pass. *)
Module GoSort.
Local Open Scope nat_scope.
Section Stable.
Context {A : Type}.
Variable less : A -> A -> bool.

(** [data.Less(i, j)]; the algorithm only reads in-range indices. *)
Definition Less (l : list A) (i j : nat) : bool :=
  match l !! i, l !! j with
  | Some x, Some y => less x y
  | _, _ => false
  end.

(** [data.Swap(i, j)]. *)
Definition swap (l : list A) (i j : nat) : list A :=
  match l !! i, l !! j with
  | Some x, Some y => <[j:=x]> (<[i:=y]> l)
  | _, _ => l
  end.

(** [for j := i; j > a && data.Less(j, j-1); j-- { data.Swap(j, j-1) }] *)
Fixpoint insertionInner (fuel : nat) (l : list A) (a j : nat) : list A :=
  match fuel with
  | 0 => l
  | S f =>
      if (a <? j) && Less l j (j - 1)
      then insertionInner f (swap l j (j - 1)) a (j - 1)
      else l
  end.

(** [for i := a + 1; i < b; i++ { ... }] *)
Fixpoint insertionOuter (fuel : nat) (l : list A) (a i b : nat) : list A :=
  match fuel with
  | 0 => l
  | S f =>
      if i <? b then insertionOuter f (insertionInner i l a i) a (S i) b else l
  end.

(** [insertionSort_func(data, a, b)] *)
Definition insertionSort (l : list A) (a b : nat) : list A :=
  insertionOuter (b - a) l a (S a) b.

(** [swapRange_func(data, a, b, n)] *)
Definition swapRange (l : list A) (a b n : nat) : list A :=
  fold_left (fun l i => swap l (a + i) (b + i)) (seq 0 n) l.

(** The loop [for i != j { ... }] of [rotate_func]. *)
Fixpoint rotateLoop (fuel : nat) (l : list A) (m i j : nat) : list A * nat :=
  match fuel with
  | 0 => (l, i)
  | S f =>
      if i =? j then (l, i)
      else if j <? i then rotateLoop f (swapRange l (m - i) m j) m (i - j) j
      else rotateLoop f (swapRange l (m - i) (m + j - i) i) m i (j - i)
  end.

(** [rotate_func(data, a, m, b)] *)
Definition rotate (l : list A) (a m b : nat) : list A :=
  let '(l', i) := rotateLoop (b - a) l m (m - a) (b - m) in
  swapRange l' (m - i) m i.

(** The binary searches of [symMerge_func]:
    [for i < j { h := int(uint(i+j) >> 1); if !f(h) { i = h + 1 } else { j = h } }]. *)
Fixpoint searchAux (fuel : nat) (f : nat -> bool) (i j : nat) : nat :=
  match fuel with
  | 0 => i
  | S fu =>
      if i <? j then
        let h := (i + j) / 2 in
        if f h then searchAux fu f i h else searchAux fu f (S h) j
      else i
  end.

Definition search (f : nat -> bool) (i j : nat) : nat := searchAux (j - i) f i j.

(** [symMerge_func(data, a, m, b)] *)
Fixpoint symMerge (fuel : nat) (l : list A) (a m b : nat) : list A :=
  match fuel with
  | 0 => l
  | S fu =>
      if m - a =? 1 then
        let i := search (fun h => negb (Less l h a)) m b in
        fold_left (fun l k => swap l k (S k)) (seq a (i - 1 - a)) l
      else if b - m =? 1 then
        let i := search (fun h => Less l m h) a m in
        fold_left (fun l k => swap l k (k - 1)) (rev (seq (S i) (m - i))) l
      else
        let mid := (a + b) / 2 in
        let n := mid + m in
        let '(start, r) := if mid <? m then (n - b, mid) else (a, m) in
        let p := n - 1 in
        let start := search (fun c => Less l (p - c) c) start r in
        let end_ := n - start in
        let l1 := if (start <? m) && (m <? end_) then rotate l start m end_ else l in
        let l2 := if (a <? start) && (start <? mid) then symMerge fu l1 a start mid else l1 in
        if (mid <? end_) && (end_ <? b) then symMerge fu l2 mid end_ b else l2
  end.

(** [for b <= n { insertionSort_func(data, a, b); a = b; b += blockSize }] *)
Fixpoint blockLoop (fuel : nat) (l : list A) (a bs n : nat) : list A * nat :=
  match fuel with
  | 0 => (l, a)
  | S f =>
      if a + bs <=? n then blockLoop f (insertionSort l a (a + bs)) (a + bs) bs n
      else (l, a)
  end.

(** [for b <= n { symMerge_func(data, a, a+blockSize, b); a = b; b += 2 * blockSize }] *)
Fixpoint mergeLoop (fuel : nat) (l : list A) (a bs n : nat) : list A * nat :=
  match fuel with
  | 0 => (l, a)
  | S f =>
      if a + 2 * bs <=? n
      then mergeLoop f (symMerge (2 * bs) l a (a + bs) (a + 2 * bs)) (a + 2 * bs) bs n
      else (l, a)
  end.

(** [for blockSize < n { ...; blockSize *= 2 }] *)
Fixpoint passLoop (fuel : nat) (l : list A) (bs n : nat) : list A :=
  match fuel with
  | 0 => l
  | S f =>
      if bs <? n then
        let '(l1, a) := mergeLoop (S n) l 0 bs n in
        let l2 := if a + bs <? n then symMerge (n - a) l1 a (a + bs) n else l1 in
        passLoop f l2 (2 * bs) n
      else l
  end.

(** [stable_func(data, n)] with [blockSize := 20]. *)
Definition stable (l : list A) : list A :=
  let n := length l in
  let '(l1, a) := blockLoop (S n) l 0 20 n in
  let l2 := insertionSort l1 a n in
  passLoop (S n) l2 20 n.

End Stable.
End GoSort.

(* ================================================================= *)
(** ** Go's strconv, as far as isNumericLike uses it *)
(* ================================================================= *)

(** Go strings are byte strings; [string] is a list of 8-bit [ascii]. *)
Module StrConv.
Local Open Scope Z_scope.

Definition code (c : ascii) : Z := Z.of_N (N_of_ascii c).

Definition is_digit (c : ascii) : bool := (48 <=? code c) && (code c <=? 57).
Definition digit_val (c : ascii) : Z := code c - 48.

(** [lower(c) = c | ('x' - 'X')] of strconv. *)
Definition lower (c : ascii) : Z := Z.lor (code c) 32.

(** [ParseUint(s, 10, 64)] on the digits after the sign: syntax error
    on an empty string or a non-digit (underscores are only accepted
    for base 0), range error above [2^64 - 1]. *)
Fixpoint digits_value (acc : Z) (l : list ascii) : option Z :=
  match l with
  | [] => Some acc
  | c :: r => if is_digit c then digits_value (acc * 10 + digit_val c) r else None
  end.

Definition ParseUint10 (l : list ascii) : option Z :=
  match l with
  | [] => None
  | _ => match digits_value 0 l with
         | Some v => if v <=? 2 ^ 64 - 1 then Some v else None
         | None => None
         end
  end.

(** [ParseInt(s, 10, 64)] succeeds. *)
Definition ParseInt10_ok (s : string) : bool :=
  match list_ascii_of_string s with
  | [] => false
  | c :: r =>
      let '(neg, body) :=
        if Ascii.eqb c "+"%char then (false, r)
        else if Ascii.eqb c "-"%char then (true, r)
        else (false, c :: r) in
      match ParseUint10 body with
      | Some un => if neg then un <=? 2 ^ 63 else un <? 2 ^ 63
      | None => false
      end
  end.

(** [commonPrefixLenIgnoreCase(s, prefix)] *)
Fixpoint commonPrefixLenIgnoreCase (s prefix : list ascii) : nat :=
  match s, prefix with
  | c :: s', p :: prefix' =>
      let c' := if (65 <=? code c) && (code c <=? 90) then code c + 32 else code c in
      if c' =? code p then S (commonPrefixLenIgnoreCase s' prefix') else 0%nat
  | _, _ => 0%nat
  end.

(** [special(s)]: the number of bytes of an infinity or NaN spelling
    at the start of [s]. *)
Definition special (s : list ascii) : option nat :=
  let inf (nsign : nat) (t : list ascii) :=
    let n := commonPrefixLenIgnoreCase t (list_ascii_of_string "infinity") in
    let n := if (3 <? n)%nat && (n <? 8)%nat then 3%nat else n in
    if (n =? 3)%nat || (n =? 8)%nat then Some (nsign + n)%nat else None in
  match s with
  | [] => None
  | c :: t =>
      if Ascii.eqb c "+"%char || Ascii.eqb c "-"%char then inf 1%nat t
      else if Ascii.eqb c "i"%char || Ascii.eqb c "I"%char then inf 0%nat s
      else if Ascii.eqb c "n"%char || Ascii.eqb c "N"%char then
        if (commonPrefixLenIgnoreCase s (list_ascii_of_string "nan") =? 3)%nat
        then Some 3%nat else None
      else None
  end.

(** [underscoreOK(s)]; [saw] is 0 for '^', 1 for a digit or base
    prefix, 2 for '_', 3 for anything else. *)
Fixpoint underscoreLoop (hex : bool) (saw : nat) (l : list ascii) : bool :=
  match l with
  | [] => negb (saw =? 2)%nat
  | c :: r =>
      if is_digit c || (hex && (97 <=? lower c) && (lower c <=? 102))
      then underscoreLoop hex 1 r
      else if Ascii.eqb c "_"%char then
        if (saw =? 1)%nat then underscoreLoop hex 2 r else false
      else if (saw =? 2)%nat then false
      else underscoreLoop hex 3 r
  end.

Definition underscoreOK (s : list ascii) : bool :=
  let s := match s with
           | c :: r => if Ascii.eqb c "-"%char || Ascii.eqb c "+"%char then r else s
           | [] => s
           end in
  match s with
  | c0 :: c1 :: r =>
      if Ascii.eqb c0 "0"%char && ((lower c1 =? 98) || (lower c1 =? 111) || (lower c1 =? 120))
      then underscoreLoop (lower c1 =? 120) 1 r
      else underscoreLoop false 0 s
  | _ => underscoreLoop false 0 s
  end.

(** What [readFloat] found: the number of bytes read, the base, the
    integer [mant] of all mantissa digits, the number [frac] of digits
    after the point and the signed exponent [exp] (accumulated only
    while below 10000, as in Go). The literal's value is
    [mant * 10^(exp - frac)] (decimal) or [mant * 2^(exp - 4 frac)]
    (hexadecimal). *)
Record ReadFloat := {
  rf_n : nat; rf_hex : bool; rf_mant : Z; rf_frac : Z; rf_exp : Z
}.

(** The mantissa loop of [readFloat]: returns the rest of the input,
    the bytes consumed, [underscores], [sawdigits], [mant], [frac]. *)
Fixpoint mantLoop (hex : bool) (sawdot : bool) (l : list ascii)
    (n : nat) (us sd : bool) (mant frac : Z)
    : list ascii * nat * bool * bool * Z * Z :=
  match l with
  | [] => ([], n, us, sd, mant, frac)
  | c :: r =>
      let base := if hex then 16 else 10 in
      if Ascii.eqb c "_"%char then mantLoop hex sawdot r (S n) true sd mant frac
      else if Ascii.eqb c "."%char then
        if sawdot then (l, n, us, sd, mant, frac)
        else mantLoop hex true r (S n) us sd mant frac
      else if is_digit c then
        mantLoop hex sawdot r (S n) us true (mant * base + digit_val c)
          (if sawdot then frac + 1 else frac)
      else if hex && (97 <=? lower c) && (lower c <=? 102) then
        mantLoop hex sawdot r (S n) us true (mant * 16 + (lower c - 87))
          (if sawdot then frac + 1 else frac)
      else (l, n, us, sd, mant, frac)
  end.

(** The exponent digit loop of [readFloat]. *)
Fixpoint expLoop (l : list ascii) (n : nat) (us : bool) (e : Z) : list ascii * nat * bool * Z :=
  match l with
  | [] => ([], n, us, e)
  | c :: r =>
      if Ascii.eqb c "_"%char then expLoop r (S n) true e
      else if is_digit c then
        expLoop r (S n) us (if e <? 10000 then e * 10 + digit_val c else e)
      else (l, n, us, e)
  end.

Definition readFloat (s : list ascii) : option ReadFloat :=
  match s with
  | [] => None
  | c :: t =>
      let '(l, n) := if Ascii.eqb c "+"%char || Ascii.eqb c "-"%char
                     then (t, 1%nat) else (s, 0%nat) in
      let '(hex, l, n) :=
        match l with
        | c0 :: c1 :: c2 :: r =>
            if Ascii.eqb c0 "0"%char && (lower c1 =? 120)
            then (true, c2 :: r, (n + 2)%nat) else (false, l, n)
        | _ => (false, l, n)
        end in
      let '(l, n, us, sd, mant, frac) := mantLoop hex false l n false false 0 0 in
      if negb sd then None else
      let expChar := if hex then 112 else 101 in
      let exp_part :=
        match l with
        | e0 :: r0 =>
            if lower e0 =? expChar then
              let '(esign, r1, n1) :=
                match r0 with
                | c1 :: r1 =>
                    if Ascii.eqb c1 "+"%char then (1, r1, (n + 2)%nat)
                    else if Ascii.eqb c1 "-"%char then (-1, r1, (n + 2)%nat)
                    else (1, r0, (n + 1)%nat)
                | [] => (1, r0, (n + 1)%nat)
                end in
              match r1 with
              | d :: _ =>
                  if is_digit d then
                    let '(_, n2, us2, e) := expLoop r1 n1 us 0 in
                    Some (Some (n2, us2, esign * e))
                  else None
              | [] => None
              end
            else Some None
        | [] => Some None
        end in
      match exp_part with
      | None => None
      | Some (Some (n2, us2, e)) =>
          if us2 && negb (underscoreOK (firstn n2 s)) then None
          else Some {| rf_n := n2; rf_hex := hex; rf_mant := mant; rf_frac := frac; rf_exp := e |}
      | Some None =>
          if hex then None
          else if us && negb (underscoreOK (firstn n s)) then None
          else Some {| rf_n := n; rf_hex := hex; rf_mant := mant; rf_frac := frac; rf_exp := 0 |}
      end
  end.

(** Overflow of float64: the literal's magnitude rounds (to nearest,
    ties to even) beyond [MaxFloat64], i.e. reaches
    [2^1024 - 2^970]; Go then returns [ErrRange]. Exponents far out of
    range are decided without computing the power: [m < 2^(log2 m + 1)]. *)
Definition overflow_bound : Z := 2 ^ 1024 - 2 ^ 970.

Definition overflows (r : ReadFloat) : bool :=
  let m := rf_mant r in
  if m =? 0 then false else
  if rf_hex r then
    let k := rf_exp r - 4 * rf_frac r in
    if 0 <=? k then (1100 <? k) || (overflow_bound <=? m * 2 ^ k)
    else if Z.log2 m + 1 <? - k then false
    else overflow_bound * 2 ^ (- k) <=? m
  else
    let k := rf_exp r - rf_frac r in
    if 0 <=? k then (400 <? k) || (overflow_bound <=? m * 10 ^ k)
    else if Z.log2 m + 1 <? - k then false
    else overflow_bound * 10 ^ (- k) <=? m.

(** [ParseFloat(s, 64)] succeeds: a special value or a float literal
    spanning the whole string, without overflow. *)
Definition ParseFloat64_ok (s : string) : bool :=
  let l := list_ascii_of_string s in
  match special l with
  | Some n => (n =? length l)%nat
  | None =>
      match readFloat l with
      | Some r => (rf_n r =? length l)%nat && negb (overflows r)
      | None => false
      end
  end.

End StrConv.


(* ================================================================= *)
(** ** Key/value pairs and the comparator of sortMappingNode *)
(* ================================================================= *)

(** The local [pair] struct and the [less] closure passed to
    [sort.SliceStable] are the same in both formatters. *)
Module Pairs.

Definition nl : string := String (ascii_of_nat 10) EmptyString.

Record pair := {
  p_key : Node;
  p_value : Node;
  p_order : Z;
  p_originalIdx : nat;
  p_hasComment : bool
}.

(** [keyNode.HeadComment != "" || keyNode.LineComment != "" ||
     keyNode.FootComment != "" || valueNode.HeadComment != ""] *)
Definition hasComment (k v : Node) : bool :=
  negb (String.eqb (HeadComment k) "") || negb (String.eqb (LineComment k) "") ||
  negb (String.eqb (FootComment k) "") || negb (String.eqb (HeadComment v) "").

(** [func(i, j int) bool] of [sort.SliceStable]; Go compares strings
    bytewise, as [String.ltb] does. *)
Definition less (p q : pair) : bool :=
  if p_hasComment p || p_hasComment q then Nat.ltb (p_originalIdx p) (p_originalIdx q)
  else if negb (Z.eqb (p_order p) (p_order q)) then Z.ltb (p_order p) (p_order q)
  else String.ltb (Value (p_key p)) (Value (p_key q)).

(** The spacing rule on one key node:
    [if h == "" { h = "\n" } else if h[0] != '\n' { h = "\n" + h }]. *)
Definition starts_with_nl (h : string) : bool :=
  match h with
  | String c _ => Ascii.eqb c (ascii_of_nat 10)
  | EmptyString => false
  end.

Definition spaceKey (k : Node) : Node :=
  if String.eqb (HeadComment k) "" then set_HeadComment k nl
  else if negb (starts_with_nl (HeadComment k)) then set_HeadComment k (String.append nl (HeadComment k))
  else k.

(** [for i := 1; i < len(pairs); i++ { ... pairs[i].key ... }] *)
Definition topSpacing (ps : list pair) : list pair :=
  match ps with
  | [] => []
  | p :: rest =>
      p :: map (fun q => {| p_key := spaceKey (p_key q); p_value := p_value q;
                            p_order := p_order q; p_originalIdx := p_originalIdx q;
                            p_hasComment := p_hasComment q |}) rest
  end.

(** [newContent = append(newContent, p.key, p.value)] for each pair. *)
Fixpoint rebuild (ps : list pair) : list Node :=
  match ps with
  | [] => []
  | p :: rest => p_key p :: p_value p :: rebuild rest
  end.

Fixpoint lookup_tbl (t : list (string * Z)) (k : string) : option Z :=
  match t with
  | [] => None
  | (k', v) :: rest => if String.eqb k k' then Some v else lookup_tbl rest k
  end.

End Pairs.
Import Pairs.

(* ================================================================= *)
(** ** The docker-compose formatter (src/unnamed/part_001) *)
(* ================================================================= *)

Module DockerCompose.
Local Open Scope Z_scope.

Definition topLevelOrder : list (string * Z) := [
  ("version", 1);
  ("name", 2);
  ("include", 3);
  ("networks", 10);
  ("volumes", 20);
  ("configs", 30);
  ("secrets", 40);
  ("models", 50);
  ("services", 1000)
].

Definition serviceLevelOrder : list (string * Z) := [
  ("image", 1);
  ("build", 2);
  ("container_name", 3);
  ("hostname", 4);
  ("domainname", 5);
  ("platform", 6);
  ("command", 10);
  ("entrypoint", 11);
  ("init", 12);
  ("environment", 20);
  ("env_file", 21);
  ("ports", 30);
  ("expose", 31);
  ("volumes", 40);
  ("volumes_from", 41);
  ("devices", 42);
  ("tmpfs", 43);
  ("networks", 50);
  ("network_mode", 51);
  ("links", 52);
  ("external_links", 53);
  ("mac_address", 54);
  ("depends_on", 60);
  ("secrets", 65);
  ("configs", 66);
  ("restart", 70);
  ("pull_policy", 71);
  ("pull_refresh_after", 72);
  ("deploy", 80);
  ("develop", 81);
  ("healthcheck", 90);
  ("labels", 100);
  ("label_file", 101);
  ("annotations", 102);
  ("attach", 103);
  ("logging", 110);
  ("extra_hosts", 120);
  ("dns", 121);
  ("dns_opt", 122);
  ("dns_search", 123);
  ("security_opt", 130);
  ("cap_add", 131);
  ("cap_drop", 132);
  ("privileged", 133);
  ("userns_mode", 134);
  ("cgroup", 135);
  ("cgroup_parent", 136);
  ("ipc", 137);
  ("pid", 138);
  ("uts", 139);
  ("isolation", 140);
  ("read_only", 141);
  ("user", 150);
  ("working_dir", 151);
  ("group_add", 152);
  ("stdin_open", 160);
  ("tty", 161);
  ("runtime", 170);
  ("scale", 171);
  ("extends", 172);
  ("profiles", 173);
  ("cpus", 180);
  ("cpu_count", 181);
  ("cpu_percent", 182);
  ("cpu_shares", 183);
  ("cpu_period", 184);
  ("cpu_quota", 185);
  ("cpu_rt_runtime", 186);
  ("cpu_rt_period", 187);
  ("cpuset", 188);
  ("mem_limit", 190);
  ("mem_reservation", 191);
  ("mem_swappiness", 192);
  ("memswap_limit", 193);
  ("pids_limit", 194);
  ("blkio_config", 195);
  ("oom_kill_disable", 196);
  ("oom_score_adj", 197);
  ("shm_size", 200);
  ("stop_signal", 210);
  ("stop_grace_period", 211);
  ("ulimits", 220);
  ("sysctls", 221);
  ("storage_opt", 222);
  ("device_cgroup_rules", 223);
  ("credential_spec", 224);
  ("gpus", 225);
  ("models", 230);
  ("provider", 231);
  ("use_api_socket", 232);
  ("post_start", 240);
  ("pre_stop", 241)
].

Definition buildOrder : list (string * Z) := [
  ("context", 1);
  ("dockerfile", 2);
  ("args", 3);
  ("target", 4);
  ("cache_from", 5);
  ("labels", 6)
].

Definition deployOrder : list (string * Z) := [
  ("mode", 1);
  ("replicas", 2);
  ("placement", 3);
  ("update_config", 4);
  ("rollback_config", 5);
  ("resources", 6);
  ("restart_policy", 7);
  ("labels", 8);
  ("endpoint_mode", 9)
].

Definition networkOrder : list (string * Z) := [
  ("driver", 1);
  ("driver_opts", 2);
  ("enable_ipv4", 3);
  ("enable_ipv6", 4);
  ("ipam", 5);
  ("external", 10);
  ("internal", 11);
  ("attachable", 12);
  ("name", 20);
  ("labels", 30)
].

Definition volumeOrder : list (string * Z) := [
  ("driver", 1);
  ("driver_opts", 2);
  ("external", 10);
  ("name", 20);
  ("labels", 30)
].

Definition secretsOrder : list (string * Z) := [
  ("file", 1);
  ("environment", 2);
  ("external", 10);
  ("name", 20)
].

Definition configsOrder : list (string * Z) := [
  ("file", 1);
  ("environment", 2);
  ("content", 3);
  ("external", 10);
  ("name", 20)
].

(** [getKeyOrder(key, isTopLevel)] *)
Definition getKeyOrder (key : string) (isTopLevel : bool) : Z :=
  let first := if isTopLevel then lookup_tbl topLevelOrder key
               else lookup_tbl serviceLevelOrder key in
  match first with
  | Some o => o
  | None =>
  match lookup_tbl buildOrder key with
  | Some o => o
  | None =>
  match lookup_tbl deployOrder key with
  | Some o => o
  | None =>
  match lookup_tbl networkOrder key with
  | Some o => o
  | None =>
  match lookup_tbl volumeOrder key with
  | Some o => o
  | None =>
  match lookup_tbl secretsOrder key with
  | Some o => o
  | None =>
  match lookup_tbl configsOrder key with
  | Some o => o
  | None => 1000
  end end end end end end end.

(** [addServiceSpacing(servicesNode)]: every key node (even index)
    except the first gets the spacing rule. *)
Fixpoint spaceKeysFrom (i : nat) (c : list Node) : list Node :=
  match c with
  | [] => []
  | x :: rest =>
      (if Nat.even i && Nat.ltb 0 i then spaceKey x else x) :: spaceKeysFrom (S i) rest
  end.

Definition addServiceSpacing (servicesNode : Node) : Node :=
  if negb (NodeKind_eqb (Kind servicesNode) MappingNode) || Nat.eqb (length (Content servicesNode)) 0
  then servicesNode
  else set_Content servicesNode (spaceKeysFrom 0 (Content servicesNode)).

(** The pair-building loop of [sortMappingNode]; [addServiceSpacing]
    mutates the value node that the pair then points to. *)
Fixpoint buildPairs (isTopLevel : bool) (i : nat) (c : list Node) : option (list pair) :=
  match c with
  | [] => Some []
  | [_] => None
  | keyNode :: valueNode :: rest =>
      let valueNode' :=
        if isTopLevel && String.eqb (Value keyNode) "services"
           && NodeKind_eqb (Kind valueNode) MappingNode
        then addServiceSpacing valueNode else valueNode in
      match buildPairs isTopLevel (i + 2) rest with
      | Some ps =>
          Some ({| p_key := keyNode; p_value := valueNode';
                   p_order := getKeyOrder (Value keyNode) isTopLevel;
                   p_originalIdx := i;
                   p_hasComment := hasComment keyNode valueNode |} :: ps)
      | None => None
      end
  end.

(** [sortMappingNode(node, isTopLevel)] *)
Definition sortMappingNode (node : Node) (isTopLevel : bool) : option Node :=
  if negb (NodeKind_eqb (Kind node) MappingNode) || Nat.eqb (length (Content node)) 0
  then Some node
  else
    match buildPairs isTopLevel 0 (Content node) with
    | None => None
    | Some ps =>
        let sorted := GoSort.stable less ps in
        let spaced := if isTopLevel then topSpacing sorted else sorted in
        Some (set_Content node (rebuild spaced))
    end.

(** [parseEnvVar(envStr)]: split at the first ['='] ([strings.Index]);
    the key must not be empty. *)
Fixpoint split_first_eq (s : string) : option (string * string) :=
  match s with
  | EmptyString => None
  | String c rest =>
      if Ascii.eqb c "="%char then Some (EmptyString, rest)
      else match split_first_eq rest with
           | Some (k, v) => Some (String c k, v)
           | None => None
           end
  end.

Definition parseEnvVar (envStr : string) : option (string * string) :=
  match split_first_eq envStr with
  | None => None
  | Some (key, value) => if String.eqb key "" then None else Some (key, value)
  end.

(** [isNumericLike(value)] *)
Definition isNumericLike (value : string) : bool :=
  StrConv.ParseInt10_ok value || StrConv.ParseFloat64_ok value.

(** [strings.ContainsAny(s, chars)] for an ASCII set [chars]: a
    multi-byte UTF-8 rune never contains an ASCII byte, so testing the
    bytes is the same as testing the runes. *)
Definition containsAny (s chars : string) : bool :=
  existsb (fun c => existsb (Ascii.eqb c) (list_ascii_of_string chars))
    (list_ascii_of_string s).

(** [strings.HasPrefix(value, p)] *)
Definition hasPrefix (value p : string) : bool := String.prefix p value.

(** [strings.ToLower] on bytes: ASCII capitals are lowered, every other
    byte is kept. Compared with the ASCII literals [yamlBools] this is
    the same as Go's rune-wise [ToLower]: the only non-ASCII runes that
    lower to ASCII letters are the Kelvin sign (to "k") and the dotted
    capital I (to "i" and a combining dot), and no literal contains a
    "k" or an "i". *)
Definition toLowerAscii (s : string) : string :=
  string_of_list_ascii
    (map (fun c => let n := nat_of_ascii c in
                   if Nat.leb 65 n && Nat.leb n 90 then ascii_of_nat (n + 32) else c)
         (list_ascii_of_string s)).

Definition specialChars : string :=
  String.concat "" ["{"; "}"; "["; "]"; ","; ":"; "&"; "*"; "#"; "?"; "|"; "-";
                    "<"; ">"; "="; "!"; "%"; "@"; String (ascii_of_nat 92) EmptyString].

Definition spaceTab : string :=
  String " "%char (String (ascii_of_nat 9) EmptyString).

Definition dquote : string := String (ascii_of_nat 34) EmptyString.
Definition squote : string := String (ascii_of_nat 39) EmptyString.

Definition yamlBools : list string := ["true"; "false"; "yes"; "no"; "on"; "off"; "y"; "n"].

(** [shouldQuoteValue(value)] *)
Definition shouldQuoteValue (value : string) : bool :=
  if String.eqb value "" then true
  else if containsAny value spaceTab then true
  else if isNumericLike value then true
  else if containsAny value specialChars then true
  else if hasPrefix value dquote || hasPrefix value squote then true
  else existsb (String.eqb (toLowerAscii value)) yamlBools.

(** The loop of [normalizeEnvironment] over [node.Content]: [envMap]
    and the first-seen key order [keys]. *)
Fixpoint envLoop (items : list Node) (envMap : gmap string string) (keys : list string)
    : gmap string string * list string :=
  match items with
  | [] => (envMap, keys)
  | item :: rest =>
      if negb (NodeKind_eqb (Kind item) ScalarNode) then envLoop rest envMap keys
      else match parseEnvVar (Value item) with
           | None => envLoop rest envMap keys
           | Some (key, value) =>
               let keys' := match envMap !! key with
                            | Some _ => keys
                            | None => app keys [key]
                            end in
               envLoop rest (<[key:=value]> envMap) keys'
           end
  end.

Definition envKeyNode (key : string) : Node := lit ScalarNode "!!str" key 0%N [].

Definition envValueNode (value : string) : Node :=
  lit ScalarNode "!!str" value (if shouldQuoteValue value then DoubleQuotedStyle else 0%N) [].

(** [normalizeEnvironment(node)] *)
Definition normalizeEnvironment (node : Node) : Node :=
  if negb (NodeKind_eqb (Kind node) SequenceNode) then node
  else
    let '(envMap, keys) := envLoop (Content node) empty [] in
    if Nat.eqb (size envMap) 0 then node
    else
      let newContent :=
        flat_map (fun key =>
                    let value := match envMap !! key with Some v => v | None => "" end in
                    [envKeyNode key; envValueNode value]) keys in
      mkNode MappingNode 0%N "!!map" (Value node) (HeadComment node)
        (LineComment node) (FootComment node) newContent.

(** [normalizePorts(node)] *)
Definition quotePort (item : Node) : Node :=
  if NodeKind_eqb (Kind item) ScalarNode
  then mkNode (Kind item) DoubleQuotedStyle "!!str" (Value item) (HeadComment item)
         (LineComment item) (FootComment item) (Content item)
  else item.

Definition normalizePorts (node : Node) : Node :=
  if negb (NodeKind_eqb (Kind node) SequenceNode) then node
  else set_Content node (map quotePort (Content node)).

(** [normalizeValues(node, parentKey)] *)
Definition normalizeValues (node : Node) (parentKey : string) : Node :=
  if String.eqb parentKey "environment" then normalizeEnvironment node
  else if String.eqb parentKey "ports" then normalizePorts node
  else node.

(** [formatNodeWithContext(node, isRoot, parentKey)]. The recursion
    follows the children of the sorted and normalised node, so it is
    not structural; [fuel] bounds the depth ([None] when it runs out,
    which [formatNode] never lets happen, see [height]). *)
Fixpoint formatNodeWithContext (fuel : nat) (node : Node) (isRoot : bool) (parentKey : string)
    : option Node :=
  match fuel with
  | O => None
  | S f =>
      let sorted := if NodeKind_eqb (Kind node) MappingNode
                    then sortMappingNode node isRoot else Some node in
      match sorted with
      | None => None
      | Some node1 =>
          let node2 := normalizeValues node1 parentKey in
          match isRoot, Kind node2, Content node2 with
          | true, DocumentNode, c0 :: rest =>
              match formatNodeWithContext f c0 true "" with
              | Some c0' => Some (set_Content node2 (c0' :: rest))
              | None => None
              end
          | _, _, _ =>
              if NodeKind_eqb (Kind node2) MappingNode then
                match pairs_of (Content node2) with
                | None => None
                | Some ps =>
                    let fix go (ps : list (Node * Node)) : option (list (Node * Node)) :=
                      match ps with
                      | [] => Some []
                      | (k, v) :: rest =>
                          match formatNodeWithContext f v false (Value k), go rest with
                          | Some v', Some rest' => Some ((k, v') :: rest')
                          | _, _ => None
                          end
                      end in
                    match go ps with
                    | Some ps' => Some (set_Content node2 (unpairs ps'))
                    | None => None
                    end
                end
              else
                let fix go (c : list Node) : option (list Node) :=
                  match c with
                  | [] => Some []
                  | x :: rest =>
                      match formatNodeWithContext f x false parentKey, go rest with
                      | Some x', Some rest' => Some (x' :: rest')
                      | _, _ => None
                      end
                  end in
                match go (Content node2) with
                | Some c' => Some (set_Content node2 c')
                | None => None
                end
          end
      end
  end.

(** The height of a tree: the fuel [formatNode] gives the walk. *)
Fixpoint height (n : Node) : nat :=
  S (fold_right (fun c acc => Nat.max (height c) acc) 0%nat (Content n)).

(** [formatNode(node, isRoot)], called on the parsed document with
    [isRoot = true]. *)
Definition formatNode (node : Node) (isRoot : bool) : option Node :=
  formatNodeWithContext (S (height node)) node isRoot "".

End DockerCompose.

(* ================================================================= *)
(** ** The Traefik formatter (src/modules/traefik/traefik.go) *)
(* ================================================================= *)

(** The file holds two copies of the package; [formatNode] and
    [sortMappingNode] are the same in both, [getKeyOrder] is the second
    (context-aware) one. *)
Module Traefik.
Local Open Scope Z_scope.

Definition topLevelOrder : list (string * Z) := [
  ("global", 1);
  ("log", 2);
  ("accessLog", 3);
  ("api", 4);
  ("ping", 5);
  ("metrics", 6);
  ("tracing", 7);
  ("hostResolver", 8);
  ("entryPoints", 10);
  ("providers", 11);
  ("certificatesResolvers", 12);
  ("http", 100);
  ("tcp", 101);
  ("udp", 102);
  ("tls", 103);
  ("experimental", 200);
  ("pilot", 201)
].

Definition httpOrder : list (string * Z) := [
  ("routers", 1);
  ("services", 2);
  ("middlewares", 3);
  ("serversTransports", 4)
].

Definition tcpOrder : list (string * Z) := [
  ("routers", 1);
  ("services", 2);
  ("middlewares", 3);
  ("serversTransports", 4)
].

Definition udpOrder : list (string * Z) := [
  ("routers", 1);
  ("services", 2)
].

Definition routerOrder : list (string * Z) := [
  ("entryPoints", 1);
  ("rule", 2);
  ("ruleSyntax", 3);
  ("priority", 4);
  ("service", 5);
  ("middlewares", 6);
  ("tls", 7);
  ("parentRefs", 8);
  ("observability", 9)
].

Definition serviceOrder : list (string * Z) := [
  ("loadBalancer", 1);
  ("weighted", 2);
  ("mirroring", 3);
  ("failover", 4);
  ("highestRandomWeight", 5)
].

Definition loadBalancerOrder : list (string * Z) := [
  ("servers", 1);
  ("strategy", 2);
  ("healthCheck", 3);
  ("passiveHealthCheck", 4);
  ("sticky", 5);
  ("serversTransport", 6);
  ("passHostHeader", 7);
  ("responseForwarding", 8)
].

Definition middlewareOrder : list (string * Z) := [
  ("addPrefix", 1);
  ("stripPrefix", 2);
  ("stripPrefixRegex", 3);
  ("replacePath", 4);
  ("replacePathRegex", 5);
  ("chain", 10);
  ("ipWhiteList", 11);
  ("ipAllowList", 12);
  ("headers", 20);
  ("errors", 21);
  ("rateLimit", 30);
  ("circuitBreaker", 31);
  ("inFlightReq", 32);
  ("redirectRegex", 40);
  ("redirectScheme", 41);
  ("basicAuth", 50);
  ("digestAuth", 51);
  ("forwardAuth", 52);
  ("buffering", 60);
  ("compress", 61);
  ("contentType", 62);
  ("grpcWeb", 63);
  ("passTLSClientCert", 70);
  ("retry", 71);
  ("plugin", 80)
].

Definition entryPointOrder : list (string * Z) := [
  ("address", 1);
  ("asDefault", 2);
  ("transport", 3);
  ("http", 4);
  ("http2", 5);
  ("http3", 6);
  ("proxyProtocol", 7);
  ("forwardedHeaders", 8)
].

Definition tlsOrder : list (string * Z) := [
  ("certificates", 1);
  ("options", 2);
  ("stores", 3);
  ("certResolver", 4);
  ("domains", 5)
].

Definition providerOrder : list (string * Z) := [
  ("providersThrottleDuration", 1);
  ("docker", 10);
  ("file", 11);
  ("kubernetes", 12);
  ("kubernetesGateway", 13);
  ("kubernetesCRD", 14);
  ("consulCatalog", 15);
  ("nomad", 16);
  ("ecs", 17);
  ("marathon", 18);
  ("rancher", 19);
  ("rest", 20);
  ("etcd", 21);
  ("consul", 22);
  ("zooKeeper", 23);
  ("redis", 24);
  ("http", 25)
].

(** [getKeyOrder(key, isTopLevel)] *)
Definition getKeyOrder (key : string) (isTopLevel : bool) : Z :=
  let top := if isTopLevel then lookup_tbl topLevelOrder key else None in
  match top with
  | Some o => o
  | None =>
  match lookup_tbl routerOrder key with
  | Some o => o
  | None =>
  match lookup_tbl serviceOrder key with
  | Some o => o
  | None =>
  match lookup_tbl loadBalancerOrder key with
  | Some o => o
  | None =>
  match lookup_tbl middlewareOrder key with
  | Some o => o
  | None =>
  match lookup_tbl entryPointOrder key with
  | Some o => o
  | None =>
  match lookup_tbl tlsOrder key with
  | Some o => o
  | None =>
  match lookup_tbl providerOrder key with
  | Some o => o
  | None =>
  match lookup_tbl httpOrder key with
  | Some o => o
  | None =>
  match lookup_tbl tcpOrder key with
  | Some o => o
  | None =>
  match lookup_tbl udpOrder key with
  | Some o => o
  | None => 1000
  end end end end end end end end end end end.

(** The pair-building loop of [sortMappingNode]. *)
Fixpoint buildPairs (isTopLevel : bool) (i : nat) (c : list Node) : option (list pair) :=
  match c with
  | [] => Some []
  | [_] => None
  | keyNode :: valueNode :: rest =>
      match buildPairs isTopLevel (i + 2) rest with
      | Some ps =>
          Some ({| p_key := keyNode; p_value := valueNode;
                   p_order := getKeyOrder (Value keyNode) isTopLevel;
                   p_originalIdx := i;
                   p_hasComment := hasComment keyNode valueNode |} :: ps)
      | None => None
      end
  end.

(** [sortMappingNode(node, isTopLevel)] *)
Definition sortMappingNode (node : Node) (isTopLevel : bool) : option Node :=
  if negb (NodeKind_eqb (Kind node) MappingNode) || Nat.eqb (length (Content node)) 0
  then Some node
  else
    match buildPairs isTopLevel 0 (Content node) with
    | None => None
    | Some ps =>
        let sorted := GoSort.stable less ps in
        let spaced := if isTopLevel then topSpacing sorted else sorted in
        Some (set_Content node (rebuild spaced))
    end.

(** [formatNode(node, isRoot)], with the depth bounded by [fuel]. *)
Fixpoint formatNodeF (fuel : nat) (node : Node) (isRoot : bool) : option Node :=
  match fuel with
  | O => None
  | S f =>
      let sorted := if NodeKind_eqb (Kind node) MappingNode
                    then sortMappingNode node isRoot else Some node in
      match sorted with
      | None => None
      | Some node1 =>
          match isRoot, Kind node1, Content node1 with
          | true, DocumentNode, c0 :: rest =>
              match formatNodeF f c0 true with
              | Some c0' => Some (set_Content node1 (c0' :: rest))
              | None => None
              end
          | _, _, _ =>
              let fix go (c : list Node) : option (list Node) :=
                match c with
                | [] => Some []
                | x :: rest =>
                    match formatNodeF f x false, go rest with
                    | Some x', Some rest' => Some (x' :: rest')
                    | _, _ => None
                    end
                end in
              match go (Content node1) with
              | Some c' => Some (set_Content node1 c')
              | None => None
              end
          end
      end
  end.

Definition formatNode (node : Node) (isRoot : bool) : option Node :=
  formatNodeF (S (DockerCompose.height node)) node isRoot.

End Traefik.

(* ================================================================= *)
(** * Views used to state the properties *)
(* ================================================================= *)

Module Props.

(** The (key node, value node) view of a pair. *)
Definition proj (p : pair) : Node * Node := (p_key p, p_value p).

(** The spacing rule as the documentation words it: a bare newline when
    there is no head comment, a newline in front of one that does not
    already start with a newline, otherwise nothing. *)
Definition spaced_head (h : string) : string :=
  if String.eqb h "" then nl
  else if starts_with_nl h then h
  else String.append nl h.

Definition with_spaced_head (k : Node) : Node :=
  set_HeadComment k (spaced_head (HeadComment k)).

(** Every entry but the first gets the spacing rule on its key. *)
Definition spaceAfterFirst (ps : list (Node * Node)) : list (Node * Node) :=
  match ps with
  | [] => []
  | p :: rest => p :: map (fun kv => (with_spaced_head kv.1, kv.2)) rest
  end.

(** What the pair loop of the docker-compose sorter does to a pair
    before sorting: the value of a top-level [services] mapping gets
    the service spacing. *)
Definition svcPair (isTop : bool) (kv : Node * Node) : Node * Node :=
  (kv.1, if isTop && String.eqb (Value kv.1) "services"
            && NodeKind_eqb (Kind kv.2) MappingNode
         then DockerCompose.addServiceSpacing kv.2 else kv.2).

Definition mapPairs (n : Node) : list (Node * Node) :=
  match pairs_of (Content n) with Some ps => ps | None => [] end.

Definition mapKeys (n : Node) : list Node := map fst (mapPairs n).

Definition keyNames (n : Node) : list string := map Value (mapKeys n).

(** Everything of a node but its children. *)
Definition same_attrs (n n' : Node) : Prop :=
  Kind n' = Kind n /\ NStyle n' = NStyle n /\ Tag n' = Tag n /\ Value n' = Value n /\
  HeadComment n' = HeadComment n /\ LineComment n' = LineComment n /\
  FootComment n' = FootComment n.

(** [RS top n n']: [n'] is [n] with the entries of its mappings
    reordered and, for the mapping reached as root ([top = true]), the
    spacing rule applied to some key head comments; nothing else differs.
    The first child of a root document is related at the root level,
    the other document children are equal. *)
Inductive RS : bool -> Node -> Node -> Prop :=
| RS_map top n n' ps qs ps' :
    Kind n = MappingNode -> same_attrs n n' ->
    pairs_of (Content n) = Some ps -> qs ≡ₚ ps -> RSpairs top qs ps' ->
    Content n' = unpairs ps' -> RS top n n'
| RS_doc n n' c0 c0' rest :
    Kind n = DocumentNode -> same_attrs n n' ->
    Content n = c0 :: rest -> RS true c0 c0' -> Content n' = c0' :: rest -> RS true n n'
| RS_node top n n' c' :
    Kind n <> MappingNode -> same_attrs n n' ->
    RSlist (Content n) c' -> Content n' = c' -> RS top n n'
with RSpairs : bool -> list (Node * Node) -> list (Node * Node) -> Prop :=
| RSp_nil top : RSpairs top [] []
| RSp_cons top k v k' v' qs qs' :
    RS false k k' -> RS false v v' -> RSpairs top qs qs' ->
    RSpairs top ((k, v) :: qs) ((k', v') :: qs')
| RSp_spaced k v k' v' qs qs' :
    RS false (with_spaced_head k) k' -> RS false v v' -> RSpairs true qs qs' ->
    RSpairs true ((k, v) :: qs) ((k', v') :: qs')
with RSlist : list Node -> list Node -> Prop :=
| RSl_nil : RSlist [] []
| RSl_cons x x' l l' : RS false x x' -> RSlist l l' -> RSlist (x :: l) (x' :: l').

(** The tables [getKeyOrder] consults, in order. *)
Definition dc_tables (isTopLevel : bool) : list (list (string * Z)) :=
  [if isTopLevel then DockerCompose.topLevelOrder else DockerCompose.serviceLevelOrder;
   DockerCompose.buildOrder; DockerCompose.deployOrder; DockerCompose.networkOrder;
   DockerCompose.volumeOrder; DockerCompose.secretsOrder; DockerCompose.configsOrder].

Definition traefik_tables (isTopLevel : bool) : list (list (string * Z)) :=
  (if isTopLevel then [Traefik.topLevelOrder] else []) ++
  [Traefik.routerOrder; Traefik.serviceOrder; Traefik.loadBalancerOrder;
   Traefik.middlewareOrder; Traefik.entryPointOrder; Traefik.tlsOrder;
   Traefik.providerOrder; Traefik.httpOrder; Traefik.tcpOrder; Traefik.udpOrder].

(** The environment entries that parse: scalar items split by
    [parseEnvVar], in document order. *)
Definition parsedItems (items : list Node) : list (string * string) :=
  omap (fun item => if NodeKind_eqb (Kind item) ScalarNode
                    then DockerCompose.parseEnvVar (Value item) else None) items.

(** Keys in first-seen order, each once. *)
Fixpoint first_seen (ks : list string) : list string :=
  match ks with
  | [] => []
  | k :: rest => k :: List.filter (fun k' => negb (String.eqb k' k)) (first_seen rest)
  end.

(** The value of the last entry with key [key]. *)
Fixpoint last_value (kvs : list (string * string)) (key : string) : option string :=
  match kvs with
  | [] => None
  | (k, v) :: rest =>
      match last_value rest key with
      | Some v' => Some v'
      | None => if String.eqb k key then Some v else None
      end
  end.

Definition tab : ascii := ascii_of_nat 9.

(** The quoting condition of the environment values, with whitespace
    read as the code reads it: a space or a tab. *)
Definition quote_needed (v : string) : Prop :=
  v = "" \/
  (exists c, In c (list_ascii_of_string v) /\ (c = " "%char \/ c = tab)) \/
  DockerCompose.isNumericLike v = true \/
  (exists c, In c (list_ascii_of_string v) /\ In c (list_ascii_of_string DockerCompose.specialChars)) \/
  String.prefix DockerCompose.dquote v = true \/ String.prefix DockerCompose.squote v = true \/
  In (DockerCompose.toLowerAscii v) DockerCompose.yamlBools.

(** The first table of [ts] that has [k], as [getKeyOrder] walks them. *)
Fixpoint first_hit (ts : list (list (string * Z))) (k : string) : option Z :=
  match ts with
  | [] => None
  | t :: ts => match lookup_tbl t k with Some o => Some o | None => first_hit ts k end
  end.

(** A rank below the sentinel, or the sentinel on the top-level [services]. *)
Definition rank_ok (top : bool) (e : string * Z) : bool :=
  Z.ltb e.2 1000 || (top && String.eqb e.1 "services" && Z.eqb e.2 1000).

(** The environment loop over the parsed entries. *)
Fixpoint envPairs (P : list (string * string)) (envMap : gmap string string) (keys : list string)
    : gmap string string * list string :=
  match P with
  | [] => (envMap, keys)
  | (key, value) :: rest =>
      envPairs rest (<[key:=value]> envMap)
        (match envMap !! key with Some _ => keys | None => app keys [key] end)
  end.

Definition memb (k : string) (ks : list string) : bool := existsb (String.eqb k) ks.

(** The parsed document is a [DocumentNode] whose first child is a
    mapping with a key (even index) satisfying [p]. *)
Definition rootKey (p : string -> bool) (r : option Node) : Prop :=
  exists d c rest i k, r = Some d /\ Kind d = DocumentNode /\ Content d = c :: rest /\
    Kind c = MappingNode /\ Content c !! (2 * i)%nat = Some k /\ p (Value k) = true.

End Props.
Import Props.

(* ================================================================= *)
(** * Inputs used by the examples *)
(* ================================================================= *)

Module Examples.

Definition sc (s : string) : Node := lit ScalarNode "!!str" s 0%N [].
Definition map_ (c : list Node) : Node := lit MappingNode "!!map" "" 0%N c.
Definition seq_ (c : list Node) : Node := lit SequenceNode "!!seq" "" 0%N c.
Definition doc (c : Node) : Node := lit DocumentNode "" "" 0%N [c].

(** C1: an environment list in a service. *)
Definition c1_input : Node :=
  doc (map_ [sc "services"; map_ [sc "web"; map_ [sc "environment";
    seq_ [sc "B=x"; sc "A=z"]]]]).

(** The tree of the first output, which is also what parsing its text
    gives back. *)
Definition c1_once : Node :=
  doc (map_ [sc "services"; map_ [sc "web"; map_ [sc "environment";
    map_ [sc "B"; sc "x"; sc "A"; sc "z"]]]]).

Definition c1_twice : Node :=
  doc (map_ [sc "services"; map_ [sc "web"; map_ [sc "environment";
    map_ [sc "A"; sc "z"; sc "B"; sc "x"]]]]).

(** C2: an http section with middlewares and serversTransports, and a
    router with middlewares. *)
Definition c2_input : Node :=
  doc (map_ [sc "http"; map_ [
    sc "middlewares"; map_ [sc "auth"; sc "x"];
    sc "serversTransports"; map_ [sc "t"; sc "y"];
    sc "routers"; map_ [sc "r"; map_ [sc "service"; sc "s"; sc "middlewares"; sc "m"]]]]).

(** The key names of the mappings under the root mapping's values. *)
Definition second_level_keys (o : option Node) : option (list (list string)) :=
  match o with
  | Some d => match Content d with
              | t :: _ => Some (map (fun kv => keyNames kv.2) (mapPairs t))
              | [] => None
              end
  | None => None
  end.

(** C3: twenty pairs kA..kT, the sixteenth (kP) with a head comment,
    then [image]. *)
Definition c3_input : Node :=
  map_ [
  sc "kA"; sc "v";
  sc "kB"; sc "v";
  sc "kC"; sc "v";
  sc "kD"; sc "v";
  sc "kE"; sc "v";
  sc "kF"; sc "v";
  sc "kG"; sc "v";
  sc "kH"; sc "v";
  sc "kI"; sc "v";
  sc "kJ"; sc "v";
  sc "kK"; sc "v";
  sc "kL"; sc "v";
  sc "kM"; sc "v";
  sc "kN"; sc "v";
  sc "kO"; sc "v";
  set_HeadComment (sc "kP") "# c"; sc "v";
  sc "kQ"; sc "v";
  sc "kR"; sc "v";
  sc "kS"; sc "v";
  sc "kT"; sc "v";
  sc "image"; sc "nginx"].

(** C5: a top-level mapping with a services mapping of two entries. *)
Definition c5_input : Node :=
  map_ [sc "services"; map_ [sc "a"; sc "x"; sc "b"; sc "y"]].

(** C4: a compose file with [services] between two unknown top-level
    keys, [x-common] before it and [aaa] after it. *)
Definition c4_input : Node :=
  doc (map_ [sc "x-common"; sc "z";
             sc "services"; map_ [sc "web"; map_ [sc "image"; sc "nginx"]];
             sc "aaa"; sc "y"]).

(** C6: a value with a line feed in it. *)
Definition c6_value : string := String.append "a" (String.append nl "b").

Definition c6_input : Node := seq_ [sc (String.append "A=" c6_value)].

(** A small compose file and a small Traefik file. *)
Definition compose_input : Node :=
  doc (map_ [sc "version"; sc "3";
             sc "services"; map_ [sc "web"; map_ [sc "image"; sc "nginx"];
                                 sc "db"; map_ [sc "image"; sc "postgres"]]]).

Definition traefik_input : Node :=
  doc (map_ [sc "http"; map_ [sc "routers"; map_ [sc "r"; map_ [sc "rule"; sc "Host"]]];
             sc "entryPoints"; map_ [sc "web"; map_ [sc "address"; sc ":80"]]]).

End Examples.
Import Examples.

(* ================================================================= *)
(** ** Output post-processing (src/formatter/formatter.go) *)
(* ================================================================= *)

(** Bytes are [ascii] characters (8 bits each). *)
Module CleanLines.
Local Open Scope nat_scope.

Definition nlc : ascii := ascii_of_nat 10.

(** [bytes.Split(data, []byte("\n"))]: one piece more than there are
    line feeds; the empty input gives one empty piece. *)
Fixpoint Split (data : list ascii) : list (list ascii) :=
  match data with
  | [] => [[]]
  | c :: r =>
      if Ascii.eqb c nlc then [] :: Split r
      else match Split r with
           | x :: xs => (c :: x) :: xs
           | [] => [[c]]
           end
  end.

(** [bytes.Join(lines, []byte("\n"))] *)
Fixpoint Join (lines : list (list ascii)) : list ascii :=
  match lines with
  | [] => []
  | [x] => x
  | x :: xs => app x (nlc :: Join xs)
  end.

(** The ASCII white space of [bytes.TrimSpace]: tab, line feed,
    vertical tab, form feed, carriage return, space. *)
Definition asciiSpace (c : ascii) : bool :=
  let n := nat_of_ascii c in
  (n =? 9) || (n =? 10) || (n =? 11) || (n =? 12) || (n =? 13) || (n =? 32).

(** [len(bytes.TrimSpace(line)) == 0]: the line decodes (UTF-8) to
    runes that all satisfy [unicode.IsSpace]. Besides the ASCII ones
    these are U+0085, U+00A0 (two bytes), U+1680, U+2000..U+200A,
    U+2028, U+2029, U+202F, U+205F and U+3000 (three bytes); an invalid
    byte decodes to U+FFFD, which is no space, and UTF-8 is prefix-free,
    so reading the encodings from the left decides it. *)
Fixpoint isSpaceOnly (l : list ascii) : bool :=
  match l with
  | [] => true
  | c :: r =>
      if asciiSpace c then isSpaceOnly r
      else match r with
           | c2 :: r2 =>
               let n1 := nat_of_ascii c in
               let n2 := nat_of_ascii c2 in
               if (n1 =? 194) && ((n2 =? 133) || (n2 =? 160)) then isSpaceOnly r2
               else match r2 with
                    | c3 :: r3 =>
                        let n3 := nat_of_ascii c3 in
                        if ((n1 =? 225) && (n2 =? 154) && (n3 =? 128))
                           || ((n1 =? 226) && (n2 =? 128)
                               && (((128 <=? n3) && (n3 <=? 138)) || (n3 =? 168)
                                   || (n3 =? 169) || (n3 =? 175)))
                           || ((n1 =? 226) && (n2 =? 129) && (n3 =? 159))
                           || ((n1 =? 227) && (n2 =? 128) && (n3 =? 128))
                        then isSpaceOnly r3 else false
                    | [] => false
                    end
           | [] => false
           end
  end.

(** The first loop: a line of white space only becomes empty. *)
Definition clearLine (line : list ascii) : list ascii :=
  if isSpaceOnly line && (0 <? length line) then [] else line.

(** The second loop: leading lines of white space only are dropped. *)
Fixpoint dropLeading (lines : list (list ascii)) : list (list ascii) :=
  match lines with
  | [] => []
  | l :: rest => if isSpaceOnly l then dropLeading rest else lines
  end.

(** [cleanEmptyLines(data)] *)
Definition cleanEmptyLines (data : list ascii) : list ascii :=
  let lines := Split data in
  let lines := map clearLine lines in
  let lines := dropLeading lines in
  Join lines.

End CleanLines.

(* ================================================================= *)
(** ** Formatter detection ([CanHandle] of each module, and main.go) *)
(* ================================================================= *)

(** [yaml.Unmarshal(data, &root)] is the parser's: its result enters
    as [option Node], [None] for a parse error. *)
Module Detect.

(** [strings.Contains(s, substr)] *)
Fixpoint contains (s substr : string) : bool :=
  String.prefix substr s ||
  match s with
  | EmptyString => false
  | String _ s' => contains s' substr
  end.

(** [strings.HasSuffix(s, suffix)] *)
Definition hasSuffix (s suffix : string) : bool :=
  Nat.leb (String.length suffix) (String.length s) &&
  String.eqb (substring (String.length s - String.length suffix) (String.length suffix) s) suffix.

(** The loop [for i := 0; i < len(content.Content); i += 2] over the
    keys of the root mapping. *)
Fixpoint anyKey (p : string -> bool) (c : list Node) : bool :=
  match c with
  | [] => false
  | k :: rest =>
      p (Value k) ||
      match rest with
      | [] => false
      | _ :: rest' => anyKey p rest'
      end
  end.

(** The part both [CanHandle]s share after the parse. *)
Definition rootKeysMatch (p : string -> bool) (root : option Node) : bool :=
  match root with
  | None => false
  | Some root =>
      if NodeKind_eqb (Kind root) DocumentNode && Nat.ltb 0 (length (Content root)) then
        match Content root with
        | content :: _ =>
            if NodeKind_eqb (Kind content) MappingNode then anyKey p (Content content)
            else false
        | [] => false
        end
      else false
  end.

Definition isComposeKey (key : string) : bool :=
  String.eqb key "services" || String.eqb key "version".

Definition isTraefikKey (key : string) : bool :=
  String.eqb key "http" || String.eqb key "tcp" || String.eqb key "udp" ||
  String.eqb key "entryPoints" || String.eqb key "providers" ||
  String.eqb key "certificatesResolvers" || String.eqb key "api".

(** [DockerComposeFormatter.CanHandle(filename, data)] *)
Definition dcCanHandle (filename : string) (root : option Node) : bool :=
  if contains filename "docker-compose" || contains filename "compose." ||
     hasSuffix filename "compose.yml" || hasSuffix filename "compose.yaml"
  then true
  else rootKeysMatch isComposeKey root.

(** [TraefikFormatter.CanHandle(filename, data)] *)
Definition traefikCanHandle (filename : string) (root : option Node) : bool :=
  if contains filename "traefik" then true
  else rootKeysMatch isTraefikKey root.

(** main.go's auto-detection: the first of [formatters]
    (docker-compose, then traefik) whose [CanHandle] holds, by its
    [Name()]. *)
Definition autoDetect (filename : string) (root : option Node) : option string :=
  if dcCanHandle filename root then Some "docker-compose"
  else if traefikCanHandle filename root then Some "traefik"
  else None.

End Detect.

(* ================================================================= *)
(** * Facts *)
(* ================================================================= *)

Module YamlFacts.

Lemma NodeKind_eqb_eq a b : NodeKind_eqb a b = true <-> a = b.
Proof. destruct a, b; simpl; split; congruence. Qed.

Lemma pairs_of_unpairs ps : pairs_of (unpairs ps) = Some ps.
Proof. induction ps as [|[k v] ps IH]; simpl; [done|]. by rewrite IH. Qed.

Lemma unpairs_pairs_of : forall c ps, pairs_of c = Some ps -> unpairs ps = c.
Proof.
  fix IH 1. intros c ps H.
  destruct c as [|k [|v rest]]; simpl in H; [by injection H as <-|done|].
  destruct (pairs_of rest) as [ps'|] eqn:E; [|done].
  injection H as <-. simpl. f_equal. f_equal. by apply IH.
Qed.

End YamlFacts.
Import YamlFacts.

(** ** Go's stable sort only swaps, and leaves an ordered slice alone *)
Module GoSortFacts.
Import GoSort.
Local Open Scope nat_scope.
Section Facts.
Context {A : Type}.
Variable less : A -> A -> bool.

Lemma swap_perm (l : list A) i j : swap l i j ≡ₚ l.
Proof.
  unfold swap. destruct (l !! i) eqn:Hi, (l !! j) eqn:Hj; try done.
  by apply Permutation_insert_swap.
Qed.

Lemma fold_left_perm {B} (g : list A -> B -> list A) (xs : list B) (l : list A) :
  (forall l' x, g l' x ≡ₚ l') -> fold_left g xs l ≡ₚ l.
Proof.
  intros Hg. revert l. induction xs as [|x xs IH]; intros l; simpl; [done|].
  by rewrite IH, Hg.
Qed.

Lemma swapRange_perm (l : list A) a b n : swapRange l a b n ≡ₚ l.
Proof. apply fold_left_perm. intros. apply swap_perm. Qed.

Lemma insertionInner_perm fuel l a j : insertionInner less fuel l a j ≡ₚ l.
Proof.
  revert l j. induction fuel as [|f IH]; intros l j; simpl; [done|].
  destruct (_ && _); [|done]. by rewrite IH, swap_perm.
Qed.

Lemma insertionOuter_perm fuel l a i b : insertionOuter less fuel l a i b ≡ₚ l.
Proof.
  revert l i. induction fuel as [|f IH]; intros l i; simpl; [done|].
  destruct (i <? b); [|done]. by rewrite IH, insertionInner_perm.
Qed.

Lemma insertionSort_perm l a b : insertionSort less l a b ≡ₚ l.
Proof. apply insertionOuter_perm. Qed.

Lemma rotateLoop_perm fuel (l : list A) m i j : (rotateLoop fuel l m i j).1 ≡ₚ l.
Proof.
  revert l i j. induction fuel as [|f IH]; intros l i j; simpl; [done|].
  destruct (i =? j); [done|]. destruct (j <? i); by rewrite IH, swapRange_perm.
Qed.

Lemma rotate_perm (l : list A) a m b : rotate l a m b ≡ₚ l.
Proof.
  unfold rotate. pose proof (rotateLoop_perm (b - a) l m (m - a) (b - m)) as H.
  destruct (rotateLoop _ _ _ _ _) as [l' i]. simpl in H. by rewrite swapRange_perm.
Qed.

Lemma symMerge_perm fuel l a m b : symMerge less fuel l a m b ≡ₚ l.
Proof.
  revert l a m b. induction fuel as [|f IH]; intros l a m b; simpl; [done|].
  destruct (m - a =? 1).
  { apply fold_left_perm. intros. apply swap_perm. }
  destruct (b - m =? 1).
  { apply fold_left_perm. intros. apply swap_perm. }
  destruct (if (a + b) / 2 <? m then _ else _) as [start r]. cbv zeta.
  repeat case_match; by rewrite ?IH, ?rotate_perm.
Qed.

Lemma blockLoop_perm fuel l a bs n : (blockLoop less fuel l a bs n).1 ≡ₚ l.
Proof.
  revert l a. induction fuel as [|f IH]; intros l a; simpl; [done|].
  destruct (a + bs <=? n); [|done]. by rewrite IH, insertionSort_perm.
Qed.

Lemma mergeLoop_perm fuel l a bs n : (mergeLoop less fuel l a bs n).1 ≡ₚ l.
Proof.
  revert l a. induction fuel as [|f IH]; intros l a; simpl; [done|].
  case_match; simpl; [by rewrite IH, symMerge_perm|done].
Qed.

Lemma passLoop_perm fuel l bs n : passLoop less fuel l bs n ≡ₚ l.
Proof.
  revert l bs. induction fuel as [|f IH]; intros l bs; [done|]. cbn [passLoop].
  destruct (bs <? n); [|done].
  pose proof (mergeLoop_perm (S n) l 0 bs n) as H.
  destruct (mergeLoop less (S n) l 0 bs n) as [l1 a]. simpl in H.
  rewrite IH. destruct (a + bs <? n); [by rewrite symMerge_perm|done].
Qed.

(** [sort.SliceStable] permutes the slice. *)
Lemma stable_perm l : stable less l ≡ₚ l.
Proof.
  unfold stable. pose proof (blockLoop_perm (S (length l)) l 0 20 (length l)) as H.
  destruct (blockLoop _ _ _ _ _ _) as [l1 a]. simpl in H.
  by rewrite passLoop_perm, insertionSort_perm.
Qed.

(** No element of [l] is [less] than an element before it. *)
Definition NoInv (l : list A) : Prop :=
  forall i j x y, i < j -> l !! i = Some x -> l !! j = Some y -> less y x = false.

Lemma Less_noinv l i j : NoInv l -> j < i -> Less less l i j = false.
Proof.
  intros H Hij. unfold Less.
  destruct (l !! i) eqn:Ei, (l !! j) eqn:Ej; try done. by eapply H.
Qed.

Lemma half_bounds i j : i < j -> i <= (i + j) / 2 < j.
Proof.
  intros H. pose proof (Nat.div_mod (i + j) 2 ltac:(lia)) as Hd.
  pose proof (Nat.mod_upper_bound (i + j) 2 ltac:(lia)). lia.
Qed.

Lemma searchAux_true fu f i j :
  (forall h, i <= h < j -> f h = true) -> searchAux fu f i j = i.
Proof.
  revert j. induction fu as [|fu IH]; intros j H; cbn [searchAux]; [done|].
  destruct (i <? j) eqn:E; [|done]. apply Nat.ltb_lt in E.
  pose proof (half_bounds i j E). rewrite H by lia. apply IH. intros h Hh. apply H. lia.
Qed.

Lemma searchAux_false fu f i j :
  i <= j -> j - i <= fu -> (forall h, i <= h < j -> f h = false) -> searchAux fu f i j = j.
Proof.
  revert i. induction fu as [|fu IH]; intros i Hij Hfu H; cbn [searchAux]; [lia|].
  destruct (i <? j) eqn:E; [|apply Nat.ltb_ge in E; lia]. apply Nat.ltb_lt in E.
  pose proof (half_bounds i j E). rewrite H by lia. apply IH; try lia. intros h Hh. apply H. lia.
Qed.

Lemma search_true f i j : (forall h, i <= h < j -> f h = true) -> search f i j = i.
Proof. apply searchAux_true. Qed.

Lemma search_false f i j :
  i <= j -> (forall h, i <= h < j -> f h = false) -> search f i j = j.
Proof. intros. apply searchAux_false; auto. Qed.

Lemma search_empty f i j : j <= i -> search f i j = i.
Proof.
  intros H. unfold search. replace (j - i) with 0 by lia. done.
Qed.

Lemma insertionInner_id fuel l a j : NoInv l -> insertionInner less fuel l a j = l.
Proof.
  intros H. destruct fuel as [|f]; simpl; [done|].
  destruct (a <? j) eqn:E; [|done]. apply Nat.ltb_lt in E.
  rewrite Less_noinv by (done || lia). done.
Qed.

Lemma insertionOuter_id fuel l a i b : NoInv l -> insertionOuter less fuel l a i b = l.
Proof.
  intros H. revert i. induction fuel as [|f IH]; intros i; simpl; [done|].
  destruct (i <? b); [|done]. by rewrite insertionInner_id, IH.
Qed.

Lemma insertionSort_id l a b : NoInv l -> insertionSort less l a b = l.
Proof. apply insertionOuter_id. Qed.

Lemma symMerge_id fuel l a m b : NoInv l -> symMerge less fuel l a m b = l.
Proof.
  intros H. revert a m b. induction fuel as [|f IH]; intros a m b; [done|].
  cbn [symMerge].
  destruct (m - a =? 1) eqn:E1.
  { apply Nat.eqb_eq in E1.
    rewrite search_true.
    - by replace (m - 1 - a) with 0 by lia.
    - intros h Hh. rewrite Less_noinv by (done || lia). done. }
  destruct (b - m =? 1) eqn:E2.
  { destruct (decide (a <= m)).
    - rewrite search_false by (done || (intros; apply Less_noinv; (done || lia))).
      by rewrite Nat.sub_diag.
    - rewrite search_empty by lia. by replace (m - a) with 0 by lia. }
  destruct ((a + b) / 2 <? m) eqn:Em.
  - apply Nat.ltb_lt in Em. cbv zeta.
    remember (search _ ((a + b) / 2 + m - b) ((a + b) / 2)) as st eqn:Est.
    assert (Hrot : (st <? m) && (m <? (a + b) / 2 + m - st) = false).
    { destruct (decide ((a + b) / 2 + m - b <= (a + b) / 2)).
      - rewrite search_false in Est; [subst st|done|].
        + apply andb_false_iff. right. apply Nat.ltb_ge. lia.
        + intros c Hc. apply Less_noinv; [done|lia].
      - rewrite search_empty in Est by lia. subst st.
        apply andb_false_iff. right. apply Nat.ltb_ge. lia. }
    rewrite Hrot. by repeat case_match; rewrite ?IH.
  - apply Nat.ltb_ge in Em. cbv zeta.
    remember (search _ a m) as st eqn:Est.
    assert (Hrot : (st <? m) && (m <? (a + b) / 2 + m - st) = false).
    { destruct (decide (a <= m)).
      - rewrite search_false in Est; [subst st|done|].
        + apply andb_false_iff. left. apply Nat.ltb_ge. lia.
        + intros c Hc. apply Less_noinv; [done|lia].
      - rewrite search_empty in Est by lia. subst st.
        apply andb_false_iff. left. apply Nat.ltb_ge. lia. }
    rewrite Hrot. by repeat case_match; rewrite ?IH.
Qed.

Lemma blockLoop_id fuel l a bs n : NoInv l -> (blockLoop less fuel l a bs n).1 = l.
Proof.
  intros H. revert a. induction fuel as [|f IH]; intros a; cbn [blockLoop]; [done|].
  case_match; [|done]. by rewrite insertionSort_id, IH.
Qed.

Lemma mergeLoop_id fuel l a bs n : NoInv l -> (mergeLoop less fuel l a bs n).1 = l.
Proof.
  intros H. revert a. induction fuel as [|f IH]; intros a; cbn [mergeLoop]; [done|].
  case_match; [|done]. by rewrite symMerge_id, IH.
Qed.

Lemma passLoop_id fuel l bs n : NoInv l -> passLoop less fuel l bs n = l.
Proof.
  intros H. revert bs. induction fuel as [|f IH]; intros bs; [done|]. cbn [passLoop].
  destruct (bs <? n); [|done].
  pose proof (mergeLoop_id (S n) l 0 bs n H) as Hm.
  destruct (mergeLoop less (S n) l 0 bs n) as [l1 a]. simpl in Hm. subst l1.
  destruct (a + bs <? n); [rewrite symMerge_id by done|]; apply IH.
Qed.

(** [sort.SliceStable] leaves a slice without inversions unchanged. *)
Lemma stable_id l : NoInv l -> stable less l = l.
Proof.
  intros H. unfold stable.
  pose proof (blockLoop_id (S (length l)) l 0 20 (length l) H) as Hb.
  destruct (blockLoop less (S (length l)) l 0 20 (length l)) as [l1 a].
  simpl in Hb. subst l1. by rewrite insertionSort_id, passLoop_id.
Qed.

End Facts.
End GoSortFacts.

(** ** The sorters rebuild a permutation of the pairs *)
Module SortFacts.

Lemma set_HeadComment_same k : set_HeadComment k (HeadComment k) = k.
Proof. by destruct k. Qed.

Lemma set_Content_same n : set_Content n (Content n) = n.
Proof. by destruct n. Qed.

Lemma spaceKey_spaced k : spaceKey k = with_spaced_head k.
Proof.
  unfold spaceKey, with_spaced_head, spaced_head.
  destruct (String.eqb (HeadComment k) "") eqn:E; [done|].
  destruct (starts_with_nl (HeadComment k)); simpl; [|done].
  by rewrite set_HeadComment_same.
Qed.

Lemma starts_with_nl_spaced h : starts_with_nl (spaced_head h) = true.
Proof.
  unfold spaced_head. destruct (String.eqb h "") eqn:E; [done|].
  destruct (starts_with_nl h) eqn:E2; [done|]. done.
Qed.

Lemma rebuild_unpairs ps : rebuild ps = unpairs (map proj ps).
Proof. induction ps as [|p ps IH]; simpl; [done|]. by rewrite IH. Qed.

Lemma topSpacing_proj ps : map proj (topSpacing ps) = spaceAfterFirst (map proj ps).
Proof.
  destruct ps as [|p ps]; simpl; [done|]. f_equal.
  rewrite !map_map. apply map_ext. intros q. unfold proj. simpl. by rewrite spaceKey_spaced.
Qed.

Lemma addServiceSpacing_head v :
  HeadComment (DockerCompose.addServiceSpacing v) = HeadComment v.
Proof. unfold DockerCompose.addServiceSpacing. by case_match. Qed.

Lemma addServiceSpacing_kind v :
  Kind (DockerCompose.addServiceSpacing v) = Kind v.
Proof. unfold DockerCompose.addServiceSpacing. by case_match. Qed.

(** The pair loop of the docker-compose sorter. *)
Lemma dc_buildPairs_some isTop :
  forall c i qs, pairs_of c = Some qs ->
  exists ps, DockerCompose.buildPairs isTop i c = Some ps /\
    map proj ps = map (svcPair isTop) qs /\
    (forall n p, ps !! n = Some p ->
       p_originalIdx p = (i + 2 * n)%nat /\ p_hasComment p = hasComment (p_key p) (p_value p)).
Proof.
  fix IH 1. intros c i qs H.
  destruct c as [|k [|v rest]]; simpl in H.
  - injection H as <-. exists []. split; [done|]. split; [done|].
    intros m p Hm. by rewrite lookup_nil in Hm.
  - done.
  - destruct (pairs_of rest) as [qs'|] eqn:E; [|done]. injection H as <-.
    destruct (IH rest (i + 2)%nat qs' E) as (ps & Hb & Hm & Hi).
    eexists. simpl. rewrite Hb. split; [done|]. split.
    + simpl. by rewrite Hm.
    + intros [|n] p Hn; simpl in Hn.
      * injection Hn as <-. simpl. split; [lia|].
        unfold hasComment. case_match; [by rewrite addServiceSpacing_head|done].
      * destruct (Hi n p Hn) as [H1 H2]. split; [lia|done].
Qed.

Lemma dc_buildPairs_none isTop :
  forall c i, pairs_of c = None -> DockerCompose.buildPairs isTop i c = None.
Proof.
  fix IH 1. intros c i H.
  destruct c as [|k [|v rest]]; simpl in H; [done|done|].
  destruct (pairs_of rest) eqn:E; [done|]. simpl. by rewrite IH.
Qed.

Lemma traefik_buildPairs_some isTop :
  forall c i qs, pairs_of c = Some qs ->
  exists ps, Traefik.buildPairs isTop i c = Some ps /\ map proj ps = qs.
Proof.
  fix IH 1. intros c i qs H.
  destruct c as [|k [|v rest]]; simpl in H.
  - injection H as <-. by exists [].
  - done.
  - destruct (pairs_of rest) as [qs'|] eqn:E; [|done]. injection H as <-.
    destruct (IH rest (i + 2)%nat qs' E) as (ps & Hb & Hm).
    eexists. simpl. rewrite Hb. split; [done|]. simpl. by rewrite Hm.
Qed.

Lemma traefik_buildPairs_none isTop :
  forall c i, pairs_of c = None -> Traefik.buildPairs isTop i c = None.
Proof.
  fix IH 1. intros c i H.
  destruct c as [|k [|v rest]]; simpl in H; [done|done|].
  destruct (pairs_of rest) eqn:E; [done|]. simpl. by rewrite IH.
Qed.

Lemma spaced_proj (isTop : bool) (s : list pair) :
  map proj (if isTop then topSpacing s else s) =
  (if isTop then spaceAfterFirst (map proj s) else map proj s).
Proof. destruct isTop; [apply topSpacing_proj|done]. Qed.

(** What [DockerCompose.sortMappingNode] does to a mapping node: its
    pairs, after the service spacing, are permuted and then spaced at
    the top level. *)
Lemma dc_sort_spec node isTop node' :
  Kind node = MappingNode ->
  DockerCompose.sortMappingNode node isTop = Some node' ->
  exists qs rs, pairs_of (Content node) = Some qs /\
    rs ≡ₚ map (svcPair isTop) qs /\
    node' = set_Content node (unpairs (if isTop then spaceAfterFirst rs else rs)).
Proof.
  intros Hk. unfold DockerCompose.sortMappingNode. rewrite Hk. cbn [NodeKind_eqb negb orb].
  destruct (Nat.eqb (length (Content node)) 0) eqn:Hl.
  - apply Nat.eqb_eq, nil_length_inv in Hl. intros [= <-]. exists [], [].
    rewrite Hl. repeat split; [done|].
    destruct isTop; simpl; by rewrite <- Hl, set_Content_same.
  - destruct (pairs_of (Content node)) as [qs|] eqn:Hp.
    + destruct (dc_buildPairs_some isTop (Content node) 0 qs Hp) as (ps & Hb & Hm & _).
      rewrite Hb. intros [= <-].
      exists qs, (map proj (GoSort.stable less ps)). repeat split.
      * rewrite <- Hm. apply Permutation_map, GoSortFacts.stable_perm.
      * by rewrite rebuild_unpairs, spaced_proj.
    + by rewrite dc_buildPairs_none.
Qed.

Lemma dc_sort_kind node isTop node' :
  DockerCompose.sortMappingNode node isTop = Some node' -> Kind node' = Kind node.
Proof.
  unfold DockerCompose.sortMappingNode. case_match; [by intros [= <-]|].
  case_match; [|done]. intros [= <-]. done.
Qed.

Lemma traefik_sort_spec node isTop node' :
  Kind node = MappingNode ->
  Traefik.sortMappingNode node isTop = Some node' ->
  exists qs rs, pairs_of (Content node) = Some qs /\ rs ≡ₚ qs /\
    node' = set_Content node (unpairs (if isTop then spaceAfterFirst rs else rs)).
Proof.
  intros Hk. unfold Traefik.sortMappingNode. rewrite Hk. cbn [NodeKind_eqb negb orb].
  destruct (Nat.eqb (length (Content node)) 0) eqn:Hl.
  - apply Nat.eqb_eq, nil_length_inv in Hl. intros [= <-]. exists [], [].
    rewrite Hl. repeat split; [done|].
    destruct isTop; simpl; by rewrite <- Hl, set_Content_same.
  - destruct (pairs_of (Content node)) as [qs|] eqn:Hp.
    + destruct (traefik_buildPairs_some isTop (Content node) 0 qs Hp) as (ps & Hb & Hm).
      rewrite Hb. intros [= <-].
      exists qs, (map proj (GoSort.stable less ps)). repeat split.
      * rewrite <- Hm. apply Permutation_map, GoSortFacts.stable_perm.
      * by rewrite rebuild_unpairs, spaced_proj.
    + by rewrite traefik_buildPairs_none.
Qed.

Lemma traefik_sort_kind node isTop node' :
  Traefik.sortMappingNode node isTop = Some node' -> Kind node' = Kind node.
Proof.
  unfold Traefik.sortMappingNode. case_match; [by intros [= <-]|].
  case_match; [|done]. intros [= <-]. done.
Qed.

End SortFacts.

(** ** The walks *)
Module WalkFacts.
Import SortFacts.

Lemma Forall2_unpairs {R : Node -> Node -> Prop} sp c' :
  Forall2 R (unpairs sp) c' ->
  exists ps', c' = unpairs ps' /\ Forall2 (fun p p' => R p.1 p'.1 /\ R p.2 p'.2) sp ps'.
Proof.
  revert c'. induction sp as [|[k v] sp IH]; intros c' H; simpl in H.
  - inversion H. by exists [].
  - inversion H as [|? k' ? c1 Hk H1]; subst. inversion H1 as [|? v' ? c2 Hv H2]; subst.
    destruct (IH c2 H2) as (ps' & -> & Hf). exists ((k', v') :: ps'). split; [done|].
    constructor; [done|done].
Qed.

Lemma RSpairs_plain top (sp ps' : list (Node * Node)) :
  Forall2 (fun p p' => RS false p.1 p'.1 /\ RS false p.2 p'.2) sp ps' -> RSpairs top sp ps'.
Proof.
  induction 1 as [|[k v] [k' v'] sp ps' [Hk Hv] _ IH]; constructor; done.
Qed.

Lemma RSpairs_spaced (sp ps' : list (Node * Node)) :
  Forall2 (fun p p' => RS false p.1 p'.1 /\ RS false p.2 p'.2)
    (map (fun kv => (with_spaced_head kv.1, kv.2)) sp) ps' -> RSpairs true sp ps'.
Proof.
  revert ps'. induction sp as [|[k v] sp IH]; intros ps' H; inversion H; subst.
  - constructor.
  - destruct y as [k' v']. destruct H2 as [Hk Hv]. apply RSp_spaced; auto.
Qed.

Lemma RSpairs_of (top : bool) (rs ps' : list (Node * Node)) :
  Forall2 (fun p p' => RS false p.1 p'.1 /\ RS false p.2 p'.2)
    (if top then spaceAfterFirst rs else rs) ps' -> RSpairs top rs ps'.
Proof.
  destruct top; [|apply RSpairs_plain].
  destruct rs as [|[k v] rs]; simpl; intros H; inversion H; subst; [constructor|].
  destruct y as [k' v']. destruct H2 as [Hk Hv]. apply RSp_cons; [done|done|].
  by apply RSpairs_spaced.
Qed.

Lemma same_attrs_set_Content n c : same_attrs n (set_Content n c).
Proof. destruct n; repeat split. Qed.

Lemma same_attrs_refl n : same_attrs n n.
Proof. repeat split. Qed.

(** The Traefik walk only reorders mapping entries and spaces the
    root mapping's keys. *)
Lemma traefik_walk_RS : forall fuel n top n', Traefik.formatNodeF fuel n top = Some n' -> RS top n n'.
Proof.
  induction fuel as [|f IH]; intros n top n' H; [done|].
  cbn [Traefik.formatNodeF] in H.
  assert (Hgo : forall c c', (fix go (c : list Node) : option (list Node) :=
              match c with
              | [] => Some []
              | x :: rest =>
                  match Traefik.formatNodeF f x false, go rest with
                  | Some x', Some rest' => Some (x' :: rest')
                  | _, _ => None
                  end
              end) c = Some c' -> Forall2 (RS false) c c').
  { induction c as [|x c IHc]; intros c' Hc; simpl in Hc.
    - injection Hc as <-. constructor.
    - destruct (Traefik.formatNodeF f x false) as [x'|] eqn:Ex; [|done].
      match type of Hc with context [match ?g c with _ => _ end] =>
        destruct (g c) as [c1|] eqn:Ec; [|done] end.
      injection Hc as <-. constructor; [by apply IH|by apply IHc]. }
  assert (Hlist : forall c c', Forall2 (RS false) c c' -> RSlist c c').
  { induction 1; constructor; done. }
  destruct (NodeKind_eqb (Kind n) MappingNode) eqn:Hk.
  - apply NodeKind_eqb_eq in Hk.
    destruct (Traefik.sortMappingNode n top) as [n1|] eqn:Hs; [|done].
    destruct (traefik_sort_spec n top n1 Hk Hs) as (qs & rs & Hp & Hperm & ->).
    cbn [set_Content Kind Content] in H. rewrite Hk in H.
    assert (Hdef : forall c', Forall2 (RS false) (unpairs (if top then spaceAfterFirst rs else rs)) c' ->
              RS top n (set_Content (set_Content n (unpairs (if top then spaceAfterFirst rs else rs))) c')).
    { intros c' Hf. apply Forall2_unpairs in Hf as (ps' & -> & Hf).
      eapply (RS_map top n _ qs rs ps'); [done| |done|done| |done].
      - destruct n; repeat split.
      - by apply RSpairs_of. }
    destruct top; cbn iota in H;
      (match type of H with context [match ?g ?c with _ => _ end] =>
         destruct (g c) as [c'|] eqn:Ec; [|done] end);
      injection H as <-; apply Hdef, Hgo, Ec.
  - assert (Hk' : Kind n <> MappingNode) by (intros E; rewrite E in Hk; done).
    assert (Hdef : forall c', Forall2 (RS false) (Content n) c' -> RS top n (set_Content n c')).
    { intros c' Hf. eapply RS_node; [done|apply same_attrs_set_Content|by apply Hlist|done]. }
    revert H. destruct top; [|cbn iota;
      match goal with |- context [match ?g ?c with _ => _ end] =>
        destruct (g c) as [c'|] eqn:Ec; [|done] end;
      intros [= <-]; apply Hdef, Hgo, Ec].
    destruct (Kind n) eqn:Hkn; cbn iota;
      try (match goal with |- context [match ?g (Content n) with _ => _ end] =>
        destruct (g (Content n)) as [c'|] eqn:Ec; [|done] end;
      intros [= <-]; apply Hdef, Hgo, Ec).
    destruct (Content n) as [|c0 rest] eqn:Hc.
    + intros [= <-]. apply Hdef. rewrite ?Hc. constructor.
    + destruct (Traefik.formatNodeF f c0 true) as [c0'|] eqn:E0; [|done].
      intros [= <-]. eapply RS_doc; [done|apply same_attrs_set_Content|done|by apply IH|done].
Qed.

Lemma normalizeValues_nonseq n pk :
  Kind n <> SequenceNode -> DockerCompose.normalizeValues n pk = n.
Proof.
  intros Hk. unfold DockerCompose.normalizeValues, DockerCompose.normalizeEnvironment,
    DockerCompose.normalizePorts.
  destruct (NodeKind_eqb (Kind n) SequenceNode) eqn:E.
  - by apply NodeKind_eqb_eq in E.
  - by repeat case_match.
Qed.

(** One step of the docker-compose walk at a mapping: sort, then walk
    every value with its key as the context. *)
Lemma dc_walk_mapping f node isRoot pk out :
  Kind node = MappingNode ->
  DockerCompose.formatNodeWithContext (S f) node isRoot pk = Some out ->
  exists node1 ps ps', DockerCompose.sortMappingNode node isRoot = Some node1 /\
    pairs_of (Content node1) = Some ps /\
    Forall2 (fun p p' => p'.1 = p.1 /\
               DockerCompose.formatNodeWithContext f p.2 false (Value p.1) = Some p'.2) ps ps' /\
    out = set_Content node1 (unpairs ps').
Proof.
  intros Hk H. cbn [DockerCompose.formatNodeWithContext] in H.
  rewrite Hk in H. cbn [NodeKind_eqb] in H.
  destruct (DockerCompose.sortMappingNode node isRoot) as [node1|] eqn:Hs; [|done].
  pose proof (dc_sort_kind _ _ _ Hs) as Hk1. rewrite Hk in Hk1.
  rewrite normalizeValues_nonseq in H by (rewrite Hk1; done).
  rewrite Hk1 in H. cbn [NodeKind_eqb] in H.
  assert (Hgo : forall ps ps', (fix go (ps : list (Node * Node)) : option (list (Node * Node)) :=
              match ps with
              | [] => Some []
              | (k, v) :: rest =>
                  match DockerCompose.formatNodeWithContext f v false (Value k), go rest with
                  | Some v', Some rest' => Some ((k, v') :: rest')
                  | _, _ => None
                  end
              end) ps = Some ps' ->
      Forall2 (fun p p' => p'.1 = p.1 /\
               DockerCompose.formatNodeWithContext f p.2 false (Value p.1) = Some p'.2) ps ps').
  { induction ps as [|[k v] ps IHp]; intros ps' Hp; simpl in Hp.
    - injection Hp as <-. constructor.
    - destruct (DockerCompose.formatNodeWithContext f v false (Value k)) as [v'|] eqn:Ev; [|done].
      match type of Hp with context [match ?g ps with _ => _ end] =>
        destruct (g ps) as [ps1|] eqn:Ep; [|done] end.
      injection Hp as <-. constructor; [done|by apply IHp]. }
  exists node1.
  destruct isRoot; cbn iota in H;
    (destruct (pairs_of (Content node1)) as [ps|] eqn:Hp; [|done]);
    (match type of H with context [match ?g ps with _ => _ end] =>
       destruct (g ps) as [ps'|] eqn:Ep; [|done] end);
    injection H as <-; exists ps, ps'; repeat split; try done; by apply Hgo.
Qed.

(** One step of the docker-compose walk at the root document. *)
Lemma dc_walk_doc f d pk out c0 rest :
  Kind d = DocumentNode -> Content d = c0 :: rest ->
  DockerCompose.formatNodeWithContext (S f) d true pk = Some out ->
  exists c0', DockerCompose.formatNodeWithContext f c0 true "" = Some c0' /\
    out = set_Content d (c0' :: rest).
Proof.
  intros Hk Hc H. cbn [DockerCompose.formatNodeWithContext] in H.
  rewrite Hk in H. cbn [NodeKind_eqb] in H.
  rewrite normalizeValues_nonseq in H by (rewrite Hk; done).
  rewrite Hk, Hc in H. cbn iota in H.
  destruct (DockerCompose.formatNodeWithContext f c0 true "") as [c0'|]; [|done].
  injection H as <-. by exists c0'.
Qed.

Lemma map_fst_Forall2 (R : Node * Node -> Node * Node -> Prop) (ps ps' : list (Node * Node)) :
  (forall p p', R p p' -> p'.1 = p.1) -> Forall2 R ps ps' -> map fst ps' = map fst ps.
Proof.
  intros HR. induction 1 as [|p p' ps ps' H1 _ IH]; simpl; [done|].
  by rewrite (HR _ _ H1), IH.
Qed.

Lemma Forall2_In_l {X Y} (R : X -> Y -> Prop) l l' x :
  Forall2 R l l' -> In x l -> exists y, In y l' /\ R x y.
Proof.
  induction 1 as [|a b l l' Hab _ IH]; simpl; [done|].
  intros [<-|Hin]; [by exists b; split; [left|]|].
  destruct (IH Hin) as (y & Hy & Hr). exists y. split; [by right|done].
Qed.

Lemma lookup_map {X Y} (g : X -> Y) (l : list X) n :
  map g l !! n = option_map g (l !! n).
Proof. revert n. induction l as [|x l IH]; intros [|n]; simpl; auto. Qed.

Lemma map_svcPair_false ps : map (svcPair false) ps = ps.
Proof. induction ps as [|[k v] ps IH]; simpl; [done|]. by rewrite IH. Qed.

Lemma pairs_of_spaceKeysFrom :
  forall c qs i, Nat.even i = true -> (0 < i)%nat -> pairs_of c = Some qs ->
  pairs_of (DockerCompose.spaceKeysFrom i c) =
    Some (map (fun kv => (with_spaced_head kv.1, kv.2)) qs).
Proof.
  fix IH 1. intros c qs i Hev Hpos H.
  destruct c as [|k [|v rest]]; simpl in H.
  - by injection H as <-.
  - done.
  - destruct (pairs_of rest) as [qs'|] eqn:E; [|done]. injection H as <-.
    assert (Hodd : Nat.even (S i) = false) by (rewrite Nat.even_succ, <- Nat.negb_even, Hev; done).
    cbn [DockerCompose.spaceKeysFrom]. rewrite Hev, Hodd.
    replace (Nat.ltb 0 i) with true by (symmetry; apply Nat.ltb_lt; lia).
    cbn [andb pairs_of].
    rewrite (IH rest qs' (S (S i))); [| by simpl | lia | done].
    by rewrite spaceKey_spaced.
Qed.

Lemma spaceKeysFrom_some_inv :
  forall c i ps, pairs_of (DockerCompose.spaceKeysFrom i c) = Some ps ->
  exists qs, pairs_of c = Some qs.
Proof.
  fix IH 1. intros c i ps H.
  destruct c as [|k [|v rest]]; simpl in H; [by exists []|done|].
  destruct (pairs_of (DockerCompose.spaceKeysFrom (S (S i)) rest)) as [ps1|] eqn:E; [|done].
  destruct (IH rest _ _ E) as [qs E2]. simpl. rewrite E2. by eexists.
Qed.

Lemma addServiceSpacing_pairs v0 qs0 :
  Kind v0 = MappingNode -> pairs_of (Content v0) = Some qs0 ->
  pairs_of (Content (DockerCompose.addServiceSpacing v0)) = Some (spaceAfterFirst qs0).
Proof.
  intros Hk H. unfold DockerCompose.addServiceSpacing. rewrite Hk. cbn [NodeKind_eqb negb orb].
  destruct (Content v0) as [|k [|v rest]] eqn:Hc; simpl in H.
  - injection H as <-. simpl. by rewrite Hc.
  - done.
  - simpl. destruct (pairs_of rest) as [qs'|] eqn:E; [|done]. injection H as <-.
    simpl. by rewrite (pairs_of_spaceKeysFrom rest qs' 2 eq_refl ltac:(lia) E).
Qed.

Lemma addServiceSpacing_pairs_inv v0 ps :
  pairs_of (Content (DockerCompose.addServiceSpacing v0)) = Some ps ->
  exists qs0, pairs_of (Content v0) = Some qs0.
Proof.
  unfold DockerCompose.addServiceSpacing. case_match; [by eexists|].
  simpl. apply spaceKeysFrom_some_inv.
Qed.

Lemma spaced_head_nonempty h : spaced_head h <> "".
Proof. intros E. pose proof (starts_with_nl_spaced h) as H. by rewrite E in H. Qed.

(** The services mapping, once spaced, has no inversion for the
    comparator, so the walk's sort of it gives it back unchanged. *)
Lemma services_sort_id v0 qs0 :
  Kind v0 = MappingNode -> pairs_of (Content v0) = Some qs0 ->
  exists ps, DockerCompose.buildPairs false 0 (Content (DockerCompose.addServiceSpacing v0)) = Some ps /\
    (forall n p, ps !! n = Some p -> (1 <= n)%nat -> p_hasComment p = true) /\
    GoSort.stable less ps = ps /\
    DockerCompose.sortMappingNode (DockerCompose.addServiceSpacing v0) false =
      Some (DockerCompose.addServiceSpacing v0).
Proof.
  intros Hk Hq. pose proof (addServiceSpacing_pairs v0 qs0 Hk Hq) as Hp.
  destruct (dc_buildPairs_some false _ 0 _ Hp) as (ps & Hb & Hm & Hi).
  rewrite map_svcPair_false in Hm.
  assert (Hc : forall n p, ps !! n = Some p -> (1 <= n)%nat -> p_hasComment p = true).
  { intros n p Hn H1. destruct (Hi n p Hn) as [_ ->].
    assert (Hl : map proj ps !! n = Some (proj p)) by (by rewrite lookup_map, Hn).
    rewrite Hm in Hl. destruct qs0 as [|q qs]; [done|]. destruct n as [|n]; [lia|].
    simpl in Hl. rewrite lookup_map in Hl.
    destruct (qs !! n) as [[k v]|]; simpl in Hl; [|done]. injection Hl as Hk1 _.
    unfold hasComment. unfold proj in Hk1. simpl in Hk1. rewrite <- Hk1.
    unfold with_spaced_head. simpl.
    destruct (String.eqb (spaced_head (HeadComment k)) "") eqn:E; [|done].
    apply String.eqb_eq, spaced_head_nonempty in E. done. }
  assert (Hst : GoSort.stable less ps = ps).
  { apply GoSortFacts.stable_id. intros i j x y Hij Hx Hy. unfold less.
    rewrite (Hc j y Hy ltac:(lia)). cbn [orb].
    destruct (Hi i x Hx) as [-> _]. destruct (Hi j y Hy) as [-> _].
    apply Nat.ltb_ge. lia. }
  exists ps. split; [done|]. split; [done|]. split; [done|].
  unfold DockerCompose.sortMappingNode. rewrite addServiceSpacing_kind, Hk.
  cbn [NodeKind_eqb negb orb].
  destruct (Nat.eqb (length (Content (DockerCompose.addServiceSpacing v0))) 0) eqn:Hl; [done|].
  rewrite Hb, Hst, rebuild_unpairs, Hm.
  rewrite (unpairs_pairs_of _ _ Hp). by rewrite set_Content_same.
Qed.

Lemma normalizeValues_ports_kind n : Kind (DockerCompose.normalizeValues n "ports") = Kind n.
Proof.
  unfold DockerCompose.normalizeValues, DockerCompose.normalizePorts. cbn.
  by case_match; [|destruct n].
Qed.

(** One step of the docker-compose walk below a [ports] key: the node
    is normalised, then its children are walked with the same key. *)
Lemma dc_walk_ports f node out :
  Kind node <> MappingNode ->
  DockerCompose.formatNodeWithContext (S f) node false "ports" = Some out ->
  exists c', out = set_Content (DockerCompose.normalizeValues node "ports") c' /\
    Forall2 (fun x x' => DockerCompose.formatNodeWithContext f x false "ports" = Some x')
      (Content (DockerCompose.normalizeValues node "ports")) c'.
Proof.
  intros Hk H. cbn [DockerCompose.formatNodeWithContext] in H.
  destruct (NodeKind_eqb (Kind node) MappingNode) eqn:E;
    [by apply NodeKind_eqb_eq in E|].
  cbn iota in H. rewrite normalizeValues_ports_kind, E in H.
  assert (Hgo : forall c c', (fix go (c : list Node) : option (list Node) :=
              match c with
              | [] => Some []
              | x :: rest =>
                  match DockerCompose.formatNodeWithContext f x false "ports", go rest with
                  | Some x', Some rest' => Some (x' :: rest')
                  | _, _ => None
                  end
              end) c = Some c' ->
      Forall2 (fun x x' => DockerCompose.formatNodeWithContext f x false "ports" = Some x') c c').
  { induction c as [|x c IHc]; intros c' Hc; simpl in Hc.
    - injection Hc as <-. constructor.
    - destruct (DockerCompose.formatNodeWithContext f x false "ports") as [x'|] eqn:Ex; [|done].
      match type of Hc with context [match ?g c with _ => _ end] =>
        destruct (g c) as [c1|] eqn:Ec; [|done] end.
      injection Hc as <-. constructor; [done|by apply IHc]. }
  match type of H with context [match ?g ?c with _ => _ end] =>
    destruct (g c) as [c'|] eqn:Ec; [|done] end.
  injection H as <-. exists c'. split; [done|by apply Hgo].
Qed.

(** A scalar leaf comes out of the walk as it went in. *)
Lemma dc_walk_scalar f x pk :
  Kind x = ScalarNode -> Content x = [] ->
  DockerCompose.formatNodeWithContext (S f) x false pk = Some x.
Proof.
  intros Hk Hc. cbn [DockerCompose.formatNodeWithContext].
  rewrite Hk. cbn [NodeKind_eqb]. cbn iota.
  rewrite normalizeValues_nonseq by (rewrite Hk; done).
  rewrite Hk, Hc. cbn. by rewrite <- Hc, set_Content_same.
Qed.

End WalkFacts.

(* ================================================================= *)
(** * The claims *)
(* ================================================================= *)

Module RankFacts.

Lemma dc_getKeyOrder_hit k top :
  DockerCompose.getKeyOrder k top = default 1000%Z (first_hit (dc_tables top) k).
Proof.
  unfold DockerCompose.getKeyOrder, dc_tables. destruct top; cbn [first_hit];
  by repeat case_match.
Qed.

Lemma traefik_getKeyOrder_hit k top :
  Traefik.getKeyOrder k top = default 1000%Z (first_hit (traefik_tables top) k).
Proof.
  unfold Traefik.getKeyOrder, traefik_tables. destruct top; cbn [first_hit app];
  by repeat case_match.
Qed.

Lemma lookup_tbl_In t k v : lookup_tbl t k = Some v -> In (k, v) t.
Proof.
  induction t as [|[k' v'] t IH]; cbn [lookup_tbl]; [done|].
  destruct (String.eqb k k') eqn:E.
  - apply String.eqb_eq in E as ->. intros [= ->]. by left.
  - intros H. right. by apply IH.
Qed.

Lemma first_hit_In ts k v : first_hit ts k = Some v -> exists t, In t ts /\ In (k, v) t.
Proof.
  induction ts as [|t ts IH]; cbn [first_hit]; [done|].
  destruct (lookup_tbl t k) as [o|] eqn:E.
  - intros [= <-]. exists t. split; [by left|by apply lookup_tbl_In].
  - intros H. destruct (IH H) as (t' & ? & ?). exists t'. split; [by right|done].
Qed.

Lemma first_hit_None ts k : first_hit ts k = None <-> Forall (fun t => lookup_tbl t k = None) ts.
Proof.
  induction ts as [|t ts IH]; cbn [first_hit]; [split; constructor|].
  rewrite Forall_cons. destruct (lookup_tbl t k); [split; [done|by intros []]|].
  rewrite IH. tauto.
Qed.

Lemma dc_tables_ok top : forallb (forallb (rank_ok top)) (dc_tables top) = true.
Proof. destruct top; vm_compute; reflexivity. Qed.

Lemma traefik_tables_ok top : forallb (forallb (fun e => Z.ltb e.2 1000)) (traefik_tables top) = true.
Proof. destruct top; vm_compute; reflexivity. Qed.

Lemma forallb_tables {P : string * Z -> bool} ts t e :
  forallb (forallb P) ts = true -> In t ts -> In e t -> P e = true.
Proof.
  intros H Ht He. rewrite forallb_forall in H. specialize (H t Ht).
  rewrite forallb_forall in H. by apply H.
Qed.

End RankFacts.

Import RankFacts.

Module EnvFacts.

Lemma parsedItems_cons item items :
  parsedItems (item :: items) =
    match (if NodeKind_eqb (Kind item) ScalarNode
           then DockerCompose.parseEnvVar (Value item) else None) with
    | Some kv => kv :: parsedItems items
    | None => parsedItems items
    end.
Proof. reflexivity. Qed.

Lemma envLoop_pairs items m keys :
  DockerCompose.envLoop items m keys = envPairs (parsedItems items) m keys.
Proof.
  revert m keys. induction items as [|item items IH]; intros m keys; [done|].
  rewrite parsedItems_cons. cbn [DockerCompose.envLoop].
  destruct (NodeKind_eqb (Kind item) ScalarNode); cbn [negb]; [|apply IH].
  destruct (DockerCompose.parseEnvVar (Value item)) as [[k v]|]; [|apply IH].
  cbn [envPairs]. apply IH.
Qed.

Lemma envPairs_lookup P m keys k :
  (envPairs P m keys).1 !! k = match last_value P k with Some v => Some v | None => m !! k end.
Proof.
  revert m keys. induction P as [|[k' v'] P IH]; intros m keys; [done|].
  cbn [envPairs last_value]. rewrite IH.
  destruct (last_value P k); [done|].
  destruct (String.eqb k' k) eqn:E.
  - apply String.eqb_eq in E as ->. by rewrite lookup_insert_eq.
  - apply String.eqb_neq in E. by rewrite lookup_insert_ne.
Qed.

Lemma filter_filter_and (f g : string -> bool) l :
  List.filter f (List.filter g l) = List.filter (fun x => f x && g x) l.
Proof.
  induction l as [|x l IH]; [done|]. cbn [List.filter].
  destruct (g x) eqn:Eg; cbn [List.filter]; destruct (f x) eqn:Ef; cbn; by rewrite ?IH.
Qed.

Lemma envPairs_keys P m keys :
  (forall k, is_Some (m !! k) <-> memb k keys = true) ->
  (envPairs P m keys).2 =
    app keys (List.filter (fun k => negb (memb k keys)) (first_seen (map fst P))).
Proof.
  revert m keys. induction P as [|[k v] P IH]; intros m keys Hinv.
  - cbn. by rewrite app_nil_r.
  - cbn [envPairs map fst first_seen List.filter].
    destruct (m !! k) as [x|] eqn:Hm.
    + assert (Hk : memb k keys = true) by (apply Hinv; by rewrite Hm).
      rewrite IH.
      * rewrite Hk. cbn [negb]. f_equal. rewrite filter_filter_and.
        apply filter_ext. intros k'. destruct (memb k' keys) eqn:E; [done|].
        destruct (String.eqb k' k) eqn:E'; [|done].
        apply String.eqb_eq in E' as ->. congruence.
      * intros k'. rewrite <- Hinv. destruct (String.eqb k k') eqn:E.
        -- apply String.eqb_eq in E as ->. rewrite lookup_insert_eq, Hm. done.
        -- apply String.eqb_neq in E. by rewrite lookup_insert_ne.
    + assert (Hk : memb k keys = false).
      { destruct (memb k keys) eqn:E; [|done]. apply Hinv in E. rewrite Hm in E.
        by destruct E. }
      rewrite IH.
      * rewrite Hk. cbn [negb]. rewrite <- app_assoc. cbn [app]. f_equal. f_equal.
        rewrite filter_filter_and. apply filter_ext. intros k'.
        unfold memb. rewrite existsb_app. cbn [existsb]. rewrite orb_false_r. apply negb_orb.
      * intros k'. unfold memb. rewrite existsb_app. cbn [existsb]. rewrite orb_false_r.
        fold (memb k' keys). destruct (String.eqb k' k) eqn:E.
        -- apply String.eqb_eq in E as ->. rewrite lookup_insert_eq, orb_true_r.
           split; [done|by eexists].
        -- apply String.eqb_neq in E. rewrite lookup_insert_ne by congruence.
           rewrite orb_false_r. apply Hinv.
Qed.

Lemma filter_true_id (l : list string) : List.filter (fun _ => true) l = l.
Proof. induction l as [|x l IH]; cbn; by rewrite ?IH. Qed.

Lemma envPairs_first_seen P : (envPairs P ∅ []).2 = first_seen (map fst P).
Proof.
  rewrite envPairs_keys.
  - cbn [app memb existsb negb]. apply filter_true_id.
  - intros k. rewrite lookup_empty. split; [by intros []|done].
Qed.

Lemma last_value_In P k : In k (map fst P) -> is_Some (last_value P k).
Proof.
  induction P as [|[k' v'] P IH]; cbn [map fst In last_value]; [done|].
  intros Hin. destruct (last_value P k); [by eexists|].
  destruct Hin as [->|Hin]; [rewrite String.eqb_refl; by eexists|].
  by destruct (IH Hin).
Qed.

Lemma envPairs_size P : size (envPairs P ∅ []).1 = 0%nat <-> P = [].
Proof.
  split; [|by intros ->].
  intros Hs. apply map_size_empty_iff in Hs.
  destruct P as [|[k v] P]; [done|].
  pose proof (envPairs_lookup ((k, v) :: P) ∅ [] k) as Hl. rewrite Hs, lookup_empty in Hl.
  destruct (last_value_In ((k, v) :: P) k) as [x Hx]; [by left|].
  rewrite Hx in Hl. done.
Qed.

Lemma normalizeEnvironment_spec node :
  DockerCompose.normalizeEnvironment node =
    if negb (NodeKind_eqb (Kind node) SequenceNode) then node
    else match parsedItems (Content node) with
         | [] => node
         | P => mkNode MappingNode 0%N "!!map" (Value node) (HeadComment node)
                  (LineComment node) (FootComment node)
                  (flat_map (fun key => [DockerCompose.envKeyNode key;
                       DockerCompose.envValueNode (default "" (last_value P key))])
                     (first_seen (map fst P)))
         end.
Proof.
  unfold DockerCompose.normalizeEnvironment.
  destruct (negb (NodeKind_eqb (Kind node) SequenceNode)); [done|].
  rewrite envLoop_pairs.
  pose proof (envPairs_size (parsedItems (Content node))) as Hs.
  pose proof (envPairs_first_seen (parsedItems (Content node))) as Hk.
  pose proof (envPairs_lookup (parsedItems (Content node)) ∅ []) as Hl.
  destruct (envPairs (parsedItems (Content node)) ∅ []) as [m ks].
  cbn [fst snd] in Hs, Hk, Hl. subst ks.
  destruct (Nat.eqb (size m) 0) eqn:E.
  - apply Nat.eqb_eq, Hs in E. by rewrite E.
  - assert (Hne : parsedItems (Content node) <> []).
    { intros Hn. apply Hs in Hn. rewrite Hn in E. done. }
    destruct (parsedItems (Content node)) as [|kv P] eqn:HP; [done|].
    f_equal. apply flat_map_ext. intros key. rewrite Hl, lookup_empty.
    by destruct (last_value (kv :: P) key).
Qed.

Lemma split_first_eq_spec s k v :
  DockerCompose.split_first_eq s = Some (k, v) <->
  s = String.append k (String "="%char v) /\ ~ In "="%char (list_ascii_of_string k).
Proof.
  revert k v. induction s as [|c s IH]; intros k v; cbn [DockerCompose.split_first_eq].
  - split; [done|]. intros [Hs _]. by destruct k.
  - destruct (Ascii.eqb c "="%char) eqn:Ec.
    + apply Ascii.eqb_eq in Ec as ->. split.
      * intros [= <- <-]. split; [done|]. cbn. tauto.
      * intros [Hs Hn]. destruct k as [|c' k]; cbn in Hs.
        -- by injection Hs as ->.
        -- injection Hs as Hc _. exfalso. apply Hn. cbn. left. congruence.
    + apply Ascii.eqb_neq in Ec.
      destruct (DockerCompose.split_first_eq s) as [[k0 v0]|] eqn:Es.
      * destruct (proj1 (IH k0 v0) eq_refl) as [Hs0 Hn0]. split.
        -- intros [= <- <-]. split; [by rewrite Hs0|]. cbn. intros [He|He]; [congruence|done].
        -- intros [Hs Hn]. destruct k as [|c' k]; cbn in Hs; [injection Hs as ->; done|].
           injection Hs as -> Hs.
           assert (Hk : Some (k0, v0) = Some (k, v)).
           { apply IH. split; [done|]. cbn in Hn. tauto. }
           by injection Hk as -> ->.
      * split; [done|]. intros [Hs Hn]. destruct k as [|c' k]; cbn in Hs; [injection Hs as ->; done|].
        injection Hs as -> Hs.
        assert (Hk : None = Some (k, v)).
        { apply IH. split; [done|]. cbn in Hn. tauto. }
        done.
Qed.

Lemma parseEnvVar_spec s k v :
  DockerCompose.parseEnvVar s = Some (k, v) <->
  k <> "" /\ s = String.append k (String "="%char v) /\ ~ In "="%char (list_ascii_of_string k).
Proof.
  unfold DockerCompose.parseEnvVar. rewrite <- split_first_eq_spec.
  destruct (DockerCompose.split_first_eq s) as [[k0 v0]|]; [|split; [done|tauto]].
  destruct (String.eqb k0 "") eqn:E.
  - apply String.eqb_eq in E as ->. split; [done|]. intros (Hk & [= <- _]). done.
  - apply String.eqb_neq in E. split.
    + intros [= <- <-]. done.
    + intros (_ & [= <- <-]). done.
Qed.

Lemma containsAny_spec s chars :
  DockerCompose.containsAny s chars = true <->
  exists c, In c (list_ascii_of_string s) /\ In c (list_ascii_of_string chars).
Proof.
  unfold DockerCompose.containsAny. rewrite existsb_exists.
  split; intros (c & Hc & H); exists c; split; try done.
  - apply existsb_exists in H as (c' & Hc' & E). apply Ascii.eqb_eq in E. by subst c'.
  - apply existsb_exists. exists c. split; [done|]. apply Ascii.eqb_refl.
Qed.

Lemma shouldQuoteValue_or v :
  DockerCompose.shouldQuoteValue v =
    String.eqb v "" || DockerCompose.containsAny v DockerCompose.spaceTab ||
    DockerCompose.isNumericLike v || DockerCompose.containsAny v DockerCompose.specialChars ||
    (DockerCompose.hasPrefix v DockerCompose.dquote || DockerCompose.hasPrefix v DockerCompose.squote) ||
    existsb (String.eqb (DockerCompose.toLowerAscii v)) DockerCompose.yamlBools.
Proof.
  unfold DockerCompose.shouldQuoteValue.
  by destruct (String.eqb v ""), (DockerCompose.containsAny v DockerCompose.spaceTab),
    (DockerCompose.isNumericLike v), (DockerCompose.containsAny v DockerCompose.specialChars),
    (DockerCompose.hasPrefix v DockerCompose.dquote || DockerCompose.hasPrefix v DockerCompose.squote).
Qed.

Lemma shouldQuoteValue_spec v : DockerCompose.shouldQuoteValue v = true <-> quote_needed v.
Proof.
  rewrite shouldQuoteValue_or. unfold quote_needed.
  rewrite !orb_true_iff, String.eqb_eq, !containsAny_spec.
  unfold DockerCompose.hasPrefix.
  assert (Hb : existsb (String.eqb (DockerCompose.toLowerAscii v)) DockerCompose.yamlBools = true <->
               In (DockerCompose.toLowerAscii v) DockerCompose.yamlBools).
  { rewrite existsb_exists. split.
    - intros (x & Hx & E). apply String.eqb_eq in E. by subst x.
    - intros Hx. exists (DockerCompose.toLowerAscii v). split; [done|apply String.eqb_refl]. }
  assert (Hst : forall c, In c (list_ascii_of_string DockerCompose.spaceTab) <-> c = " "%char \/ c = tab).
  { intros c. cbn. unfold tab. split; [intros [H|[H|[]]]|intros [H|H]]; subst; auto. }
  rewrite Hb. setoid_rewrite Hst. tauto.
Qed.

End EnvFacts.

(** ** The post-processing of the encoder output *)
Module CleanFacts.
Import CleanLines.
Local Open Scope list_scope.
Local Open Scope nat_scope.

Lemma Split_cons_nonnl c r : Ascii.eqb c nlc = false ->
  exists x xs, Split r = x :: xs /\ Split (c :: r) = (c :: x) :: xs.
Proof.
  intros Hc. cbn [Split]. rewrite Hc.
  destruct (Split r) as [|x xs] eqn:E.
  - destruct r; cbn in E; [done|]. destruct (Ascii.eqb a nlc); [done|]. by destruct (Split r).
  - by exists x, xs.
Qed.

Lemma Split_nonempty d : Split d <> [].
Proof.
  destruct d as [|c r]; cbn; [done|].
  destruct (Ascii.eqb c nlc); [done|]. by destruct (Split r).
Qed.

Lemma Split_no_nl d : Forall (fun l => ~ In nlc l) (Split d).
Proof.
  induction d as [|c r IH]; cbn [Split]; [repeat constructor; by intros []|].
  destruct (Ascii.eqb c nlc) eqn:Hc; [constructor; [by intros []|done]|].
  destruct (Split r) as [|x xs] eqn:E; [by apply Split_nonempty in E|].
  inversion IH; subst. constructor; [|done].
  intros [Heq|Hin]; [rewrite Heq, Ascii.eqb_refl in Hc; done|done].
Qed.

Lemma Split_app_nonl x y : ~ In nlc x ->
  Split (x ++ y) = match Split y with z :: zs => (x ++ z) :: zs | [] => [x] end.
Proof.
  induction x as [|c x IH]; intros Hx; cbn.
  - destruct (Split y) eqn:E; [by apply Split_nonempty in E|done].
  - assert (Hc : Ascii.eqb c nlc = false).
    { apply Ascii.eqb_neq. intros ->. apply Hx. by left. }
    rewrite Hc, IH by (intros H; apply Hx; by right).
    destruct (Split y) eqn:E; [by apply Split_nonempty in E|done].
Qed.

Lemma Split_Join L : L <> [] -> Forall (fun l => ~ In nlc l) L -> Split (Join L) = L.
Proof.
  induction L as [|x L IH]; intros Hne HL; [done|]. inversion HL as [|? ? Hx HL']; subst.
  destruct L as [|y L].
  - cbn [Join]. rewrite <- (app_nil_r x), Split_app_nonl by done. done.
  - change (Join (x :: y :: L)) with (x ++ nlc :: Join (y :: L)).
    rewrite Split_app_nonl by done. cbn [Split]. rewrite Ascii.eqb_refl.
    by rewrite app_nil_r, IH.
Qed.

Lemma clearLine_blank l : isSpaceOnly (clearLine l) = isSpaceOnly l.
Proof. unfold clearLine. by destruct (isSpaceOnly l) eqn:E; cbn; [case_match|]. Qed.

Lemma clearLine_idem l : clearLine (clearLine l) = clearLine l.
Proof.
  unfold clearLine. destruct (isSpaceOnly l && (0 <? length l)) eqn:E; [done|].
  by rewrite E.
Qed.

Lemma dropLeading_map L : dropLeading (map clearLine L) = map clearLine (dropLeading L).
Proof.
  induction L as [|x L IH]; [done|]. cbn [map dropLeading]. rewrite clearLine_blank.
  by destruct (isSpaceOnly x).
Qed.

Lemma dropLeading_head L x rest : dropLeading L = x :: rest -> isSpaceOnly x = false.
Proof.
  induction L as [|y L IH]; cbn; [done|].
  destruct (isSpaceOnly y) eqn:E; [done|]. by intros [= -> _].
Qed.

Lemma dropLeading_nonblank L : (forall x rest, L = x :: rest -> isSpaceOnly x = false) ->
  dropLeading L = L.
Proof. destruct L as [|x L]; intros H; [done|]. cbn. by rewrite (H x L eq_refl). Qed.

Lemma clearLine_no_nl l : ~ In nlc l -> ~ In nlc (clearLine l).
Proof. unfold clearLine. case_match; [by intros _ []|done]. Qed.

Lemma dropLeading_suffix L : exists pre, L = pre ++ dropLeading L.
Proof.
  induction L as [|x L [pre IH]]; [by exists []|]. cbn.
  destruct (isSpaceOnly x); [exists (x :: pre); cbn; by rewrite <- IH|by exists []].
Qed.

Lemma dropLeading_Forall (P : list ascii -> Prop) L : Forall P L -> Forall P (dropLeading L).
Proof.
  intros H. destruct (dropLeading_suffix L) as [pre E]. rewrite E in H.
  by apply Forall_app in H as [_ H].
Qed.

(** The lines [cleanEmptyLines] joins. *)
Lemma clean_lines d :
  cleanEmptyLines d = Join (map clearLine (dropLeading (Split d))).
Proof. unfold cleanEmptyLines. by rewrite dropLeading_map. Qed.

Lemma clean_lines_no_nl d : Forall (fun l => ~ In nlc l) (map clearLine (dropLeading (Split d))).
Proof.
  apply Forall_map. eapply Forall_impl; [apply dropLeading_Forall, Split_no_nl|].
  intros l. apply clearLine_no_nl.
Qed.

Lemma dropLeading_nil L : dropLeading L = [] <-> Forall (fun l => isSpaceOnly l = true) L.
Proof.
  induction L as [|x L IH]; cbn; [split; [constructor|done]|].
  rewrite Forall_cons. destruct (isSpaceOnly x); [rewrite IH; tauto|].
  split; [done|by intros []].
Qed.

Lemma filter_dropLeading L :
  List.filter (fun l => negb (isSpaceOnly l)) (dropLeading L) =
  List.filter (fun l => negb (isSpaceOnly l)) L.
Proof.
  induction L as [|x L IH]; [done|]. cbn [dropLeading].
  destruct (isSpaceOnly x) eqn:E; [|done]. cbn [List.filter]. by rewrite E, IH.
Qed.

Lemma filter_clearLine L :
  List.filter (fun l => negb (isSpaceOnly l)) (map clearLine L) =
  List.filter (fun l => negb (isSpaceOnly l)) L.
Proof.
  induction L as [|x L IH]; [done|]. cbn [map List.filter]. rewrite clearLine_blank, IH.
  unfold clearLine. by destruct (isSpaceOnly x).
Qed.

Lemma clearLine_blank_nil l : isSpaceOnly (clearLine l) = true -> clearLine l = [].
Proof.
  unfold clearLine. destruct (isSpaceOnly l) eqn:E; cbn; [|by rewrite E].
  destruct l; done.
Qed.

Lemma Join_nil L : Join L = [] -> L = [] \/ L = [[]].
Proof.
  destruct L as [|x [|y L]]; [by left|cbn; intros ->; by right|].
  cbn. intros H. by apply app_eq_nil in H as [_ ?].
Qed.

End CleanFacts.

(** ** Format detection *)
Module DetectFacts.
Import Detect.

Lemma append_cons x (a b : string) : String.append (String x a) b = String x (String.append a b).
Proof. reflexivity. Qed.

Lemma append_assoc_str (a b c : string) :
  String.append (String.append a b) c = String.append a (String.append b c).
Proof. induction a as [|x a IH]; [done|]. by rewrite !append_cons, IH. Qed.

Lemma prefix_app (t s : string) : String.prefix t s = true <-> exists q, s = String.append t q.
Proof.
  revert s. induction t as [|x t IH]; intros s.
  - split; [intros _; by exists s|intros _; by destruct s].
  - destruct s as [|y s]; cbn.
    + split; [done|by intros [q ?]].
    + destruct (ascii_dec x y) as [->|Hne].
      * rewrite IH. split; intros [q Hq]; exists q; [by rewrite Hq|by injection Hq].
      * split; [done|]. intros [q Hq]. injection Hq as ? _. congruence.
Qed.

Lemma contains_app (s t : string) :
  contains s t = true <-> exists p q, s = String.append p (String.append t q).
Proof.
  induction s as [|x s IH]; cbn [contains].
  - rewrite orb_false_r, prefix_app. split.
    + intros [q Hq]. by exists "", q.
    + intros (p & q & Hpq). destruct p; [by exists q|done].
  - rewrite orb_true_iff, prefix_app, IH. split.
    + intros [[q Hq]|(p & q & Hpq)]; [by exists "", q|].
      exists (String x p), q. by rewrite Hpq.
    + intros (p & q & Hpq). destruct p as [|y p]; [left; by exists q|].
      right. injection Hpq as -> Hs. by exists p, q.
Qed.

Lemma substring_0_full (s : string) : substring 0 (String.length s) s = s.
Proof.
  induction s as [|x s IH]; [done|].
  change (substring 0 (String.length (String x s)) (String x s))
    with (String x (substring 0 (String.length s) s)). by rewrite IH.
Qed.

Lemma substring_split (s : string) n :
  n <= String.length s ->
  s = String.append (substring 0 n s) (substring n (String.length s - n) s).
Proof.
  revert n. induction s as [|x s IH]; intros n Hn.
  - by destruct n.
  - destruct n as [|n].
    + rewrite Nat.sub_0_r. change (substring 0 0 (String x s)) with "".
      change (String.append "" ?y) with y. symmetry. apply substring_0_full.
    + change (substring 0 (S n) (String x s)) with (String x (substring 0 n s)).
      change (substring (S n) ?m (String x s)) with (substring n m s).
      cbn [String.length] in *. replace (S (String.length s) - S n) with (String.length s - n) by lia.
      rewrite append_cons. f_equal. apply IH. lia.
Qed.

Lemma hasSuffix_app s suffix :
  hasSuffix s suffix = true -> exists p, s = String.append p suffix.
Proof.
  unfold hasSuffix. intros [Hl He]%andb_true_iff.
  apply Nat.leb_le in Hl. apply String.eqb_eq in He.
  exists (substring 0 (String.length s - String.length suffix) s).
  pose proof (substring_split s (String.length s - String.length suffix) ltac:(lia)) as E.
  replace (String.length s - (String.length s - String.length suffix))
    with (String.length suffix) in E by lia.
  by rewrite He in E.
Qed.

Lemma hasSuffix_contains s suffix t u :
  hasSuffix s suffix = true -> suffix = String.append t u -> contains s t = true.
Proof.
  intros Hs ->. apply hasSuffix_app in Hs as [p ->]. apply contains_app.
  by exists p, u.
Qed.

Lemma anyKey_spec (p : string -> bool) c :
  anyKey p c = true <-> exists i k, c !! (2 * i)%nat = Some k /\ p (Value k) = true.
Proof.
  revert c. fix IH 1. intros c. destruct c as [|k rest].
  - cbn. split; [done|]. by intros (i & k & Hk & _).
  - cbn [anyKey]. rewrite orb_true_iff. split.
    + intros [Hp|Hr]; [by exists 0%nat, k|].
      destruct rest as [|v rest']; [done|].
      apply IH in Hr as (i & k' & Hk & Hp). exists (S i), k'. split; [|done].
      replace (2 * S i)%nat with (S (S (2 * i))) by lia. done.
    + intros (i & k' & Hk & Hp). destruct i as [|i].
      * injection Hk as ->. by left.
      * right. destruct rest as [|v rest'].
        -- replace (2 * S i)%nat with (S (S (2 * i))) in Hk by lia. done.
        -- apply IH. exists i, k'. split; [|done].
           replace (2 * S i)%nat with (S (S (2 * i))) in Hk by lia. done.
Qed.

Lemma rootKeysMatch_spec p r :
  rootKeysMatch p r = true <->
  exists d c rest i k, r = Some d /\ Kind d = DocumentNode /\ Content d = c :: rest /\
    Kind c = MappingNode /\ Content c !! (2 * i)%nat = Some k /\ p (Value k) = true.
Proof.
  unfold rootKeysMatch. split.
  - destruct r as [d|]; [|done].
    destruct (NodeKind_eqb (Kind d) DocumentNode) eqn:Hd; [|done].
    destruct (Content d) as [|c rest] eqn:Hc; [done|]. cbn [length Nat.ltb andb].
    destruct (NodeKind_eqb (Kind c) MappingNode) eqn:Hm; [|done].
    intros (i & k & Hk & Hp)%anyKey_spec.
    exists d, c, rest, i, k. apply NodeKind_eqb_eq in Hd, Hm. done.
  - intros (d & c & rest & i & k & -> & Hd & Hc & Hm & Hk & Hp).
    rewrite Hd, Hc, Hm. cbn. apply anyKey_spec. by exists i, k.
Qed.

Lemma dcCanHandle_contains f r :
  dcCanHandle f r = contains f "docker-compose" || contains f "compose." || rootKeysMatch isComposeKey r.
Proof.
  unfold dcCanHandle.
  destruct (contains f "docker-compose"), (contains f "compose.") eqn:Hc; cbn; try done.
  destruct (hasSuffix f "compose.yml") eqn:H1.
  { by rewrite (hasSuffix_contains f "compose.yml" "compose." "yml" H1 eq_refl) in Hc. }
  destruct (hasSuffix f "compose.yaml") eqn:H2; [|done].
  by rewrite (hasSuffix_contains f "compose.yaml" "compose." "yaml" H2 eq_refl) in Hc.
Qed.

End DetectFacts.

(** ** Further facts on the formatters *)
Module MoreFacts.
Import SortFacts WalkFacts EnvFacts.
Local Open Scope list_scope.

Lemma pairs_of_None_odd : forall c, pairs_of c = None <-> Nat.odd (length c) = true.
Proof.
  fix IH 1. intros c. destruct c as [|k [|v rest]]; cbn [pairs_of length].
  - done.
  - done.
  - rewrite Nat.odd_succ, Nat.even_succ, <- IH.
    destruct (pairs_of rest); done.
Qed.

Lemma with_spaced_head_idem k : with_spaced_head (with_spaced_head k) = with_spaced_head k.
Proof.
  unfold with_spaced_head. destruct k as [kd st tg v h lc fc c]. cbn.
  f_equal. unfold spaced_head at 1.
  destruct (String.eqb (spaced_head h) "") eqn:E.
  - by apply String.eqb_eq, spaced_head_nonempty in E.
  - by rewrite starts_with_nl_spaced.
Qed.

Lemma spaceKey_idem k : spaceKey (spaceKey k) = spaceKey k.
Proof. rewrite !spaceKey_spaced. apply with_spaced_head_idem. Qed.

Lemma spaceKeysFrom_idem : forall c i,
  DockerCompose.spaceKeysFrom i (DockerCompose.spaceKeysFrom i c) = DockerCompose.spaceKeysFrom i c.
Proof.
  induction c as [|x c IH]; intros i; [done|]. cbn [DockerCompose.spaceKeysFrom].
  rewrite IH. f_equal. destruct (Nat.even i && Nat.ltb 0 i); [apply spaceKey_idem|done].
Qed.

Lemma spaceKeysFrom_length : forall c i, length (DockerCompose.spaceKeysFrom i c) = length c.
Proof. induction c as [|x c IH]; intros i; cbn; [done|by rewrite IH]. Qed.

Lemma first_seen_NoDup ks : NoDup (first_seen ks).
Proof.
  induction ks as [|k ks IH]; cbn [first_seen]; constructor.
  - rewrite list_elem_of_In. intros Hin. apply filter_In in Hin as [_ Hk]. by rewrite String.eqb_refl in Hk.
  - apply NoDup_ListNoDup, List.NoDup_filter, NoDup_ListNoDup. exact IH.
Qed.

Lemma env_pairs_of (f : string -> string) ks :
  pairs_of (flat_map (fun key => [DockerCompose.envKeyNode key;
                                   DockerCompose.envValueNode (f key)]) ks) =
  Some (map (fun key => (DockerCompose.envKeyNode key, DockerCompose.envValueNode (f key))) ks).
Proof. induction ks as [|k ks IH]; cbn; [done|by rewrite IH]. Qed.

Lemma split_first_eq_None s :
  DockerCompose.split_first_eq s = None <-> ~ In "="%char (list_ascii_of_string s).
Proof.
  induction s as [|c s IH]; cbn [DockerCompose.split_first_eq list_ascii_of_string In].
  - tauto.
  - destruct (Ascii.eqb c "="%char) eqn:Ec.
    + apply Ascii.eqb_eq in Ec as ->. split; [done|]. intros H. exfalso. apply H. by left.
    + apply Ascii.eqb_neq in Ec.
      destruct (DockerCompose.split_first_eq s) as [[k v]|] eqn:Es.
      * split; [done|]. intros H. exfalso. apply H. right.
        destruct (in_dec ascii_dec "="%char (list_ascii_of_string s)) as [Hin|Hin]; [done|].
        apply IH in Hin. congruence.
      * split; [intros _|done]. intros [He|Hin]; [congruence|]. by apply IH.
Qed.

Lemma append_cons' x (a b : string) : String.append (String x a) b = String x (String.append a b).
Proof. reflexivity. Qed.

Lemma In_eq_append k v : In "="%char (list_ascii_of_string (String.append k (String "="%char v))).
Proof. induction k as [|c k IH]; [by left|]. rewrite append_cons'. by right. Qed.

Lemma list_ascii_length s : length (list_ascii_of_string s) = String.length s.
Proof. induction s as [|c s IH]; cbn; [done|by rewrite IH]. Qed.

Local Open Scope Z_scope.

Lemma digits_value_bounds : forall l acc,
  Forall (fun c => StrConv.is_digit c = true) l -> 0 <= acc ->
  exists v, StrConv.digits_value acc l = Some v /\
    acc * 10 ^ Z.of_nat (length l) <= v < (acc + 1) * 10 ^ Z.of_nat (length l).
Proof.
  induction l as [|c l IH]; intros acc Hd Hacc.
  - exists acc. split; [done|]. cbn. lia.
  - inversion Hd as [|? ? Hc Hl]; subst. cbn [StrConv.digits_value]. rewrite Hc.
    unfold StrConv.is_digit in Hc. apply andb_true_iff in Hc as [H1 H2].
    apply Z.leb_le in H1, H2. unfold StrConv.digit_val.
    destruct (IH (acc * 10 + (StrConv.code c - 48)) Hl ltac:(lia)) as (v & Hv & Hb).
    exists v. split; [done|]. cbn [length]. rewrite Nat2Z.inj_succ, Z.pow_succ_r by lia.
    pose proof (Z.pow_pos_nonneg 10 (Z.of_nat (length l)) ltac:(lia) ltac:(lia)). nia.
Qed.

End MoreFacts.


Module Claims.
Import SortFacts WalkFacts RankFacts EnvFacts.

(** C8: after the docker-compose walk of a document whose root is a
    mapping, every root entry but the first has its key's head comment
    put through the spacing rule ([spaced_head]: a bare newline for an
    empty head comment, a newline in front of one that does not start
    with a newline, no change otherwise), so it starts with a newline;
    the first root entry keeps an original key node unchanged; and the
    keys of every [services] mapping come out as the input keys with
    the same rule applied to all of them but the first. (That the
    encoder prints a head comment starting with a newline as a blank
    line is outside the model.) *)
Theorem spacing_injection d d' top rest :
  DockerCompose.formatNode d true = Some d' ->
  Kind d = DocumentNode -> Content d = top :: rest -> Kind top = MappingNode ->
  (forall h, starts_with_nl (spaced_head h) = true) /\
  exists top', Content d' = top' :: rest /\
    (forall kn, mapKeys top' !! 0%nat = Some kn -> In kn (mapKeys top)) /\
    (forall n kn, (1 <= n)%nat -> mapKeys top' !! n = Some kn ->
       exists kn0, In kn0 (mapKeys top) /\ kn = with_spaced_head kn0) /\
    (forall kn0 v0, In (kn0, v0) (mapPairs top) -> Value kn0 = "services" ->
       Kind v0 = MappingNode ->
       exists kn vn, In (kn, vn) (mapPairs top') /\ Value kn = "services" /\
         mapKeys vn = map fst (spaceAfterFirst (mapPairs v0))).
Proof.
  intros Hf Hd Hc Ht. split; [apply starts_with_nl_spaced|].
  unfold DockerCompose.formatNode in Hf.
  destruct (dc_walk_doc _ d "" d' top rest Hd Hc Hf) as (top' & Hw & ->).
  assert (Hh : exists f, DockerCompose.height d = S f) by (destruct d; by eexists).
  destruct Hh as [f Hh]. rewrite Hh in Hw.
  destruct (dc_walk_mapping f top true "" top' Ht Hw) as (node1 & ps & ps' & Hs & Hp & HF & ->).
  destruct (dc_sort_spec top true node1 Ht Hs) as (qs & rs & Hq & Hperm & ->).
  cbn [set_Content Content] in Hp. rewrite pairs_of_unpairs in Hp. injection Hp as <-.
  assert (Hkeys : forall r, In r rs -> In r.1 (mapKeys top)).
  { intros r Hr. unfold mapKeys, mapPairs. rewrite Hq.
    apply (Permutation_in r Hperm), in_map_iff in Hr as ([k v] & <- & Hin).
    apply in_map_iff. by exists (k, v). }
  assert (Hmp : mapPairs (set_Content (set_Content top (unpairs (spaceAfterFirst rs))) (unpairs ps')) = ps').
  { unfold mapPairs. simpl. by rewrite pairs_of_unpairs. }
  assert (Hmk : mapKeys (set_Content (set_Content top (unpairs (spaceAfterFirst rs))) (unpairs ps'))
                = map fst (spaceAfterFirst rs)).
  { unfold mapKeys. rewrite Hmp. eapply map_fst_Forall2; [|done]. by intros ? ? [? _]. }
  exists (set_Content (set_Content top (unpairs (spaceAfterFirst rs))) (unpairs ps')).
  split; [done|]. rewrite Hmk, Hmp. split; [|split].
  - intros kn Hk. destruct rs as [|r0 rr]; [done|]. simpl in Hk. injection Hk as <-.
    apply Hkeys. by left.
  - intros n kn Hn Hk. destruct rs as [|r0 rr]; [done|]. destruct n as [|n]; [lia|].
    simpl in Hk. rewrite map_map, lookup_map in Hk.
    destruct (rr !! n) as [r|] eqn:Er; simpl in Hk; [|done]. injection Hk as <-.
    exists r.1. split; [|done]. apply Hkeys. right.
    apply list_elem_of_In. by eapply list_elem_of_lookup_2.
  - intros kn0 v0 Hin Hsv Hkv. unfold mapPairs in Hin. rewrite Hq in Hin.
    assert (Hr : In (kn0, DockerCompose.addServiceSpacing v0) rs).
    { apply (Permutation_in _ (Permutation_sym Hperm)), in_map_iff.
      exists (kn0, v0). split; [|done]. unfold svcPair. simpl.
      rewrite Hsv, Hkv. done. }
    assert (Hr2 : exists kn1, In (kn1, DockerCompose.addServiceSpacing v0) (spaceAfterFirst rs)
                              /\ Value kn1 = "services").
    { destruct rs as [|r0 rr]; [done|]. destruct Hr as [->|Hr].
      - exists kn0. split; [by left|done].
      - exists (with_spaced_head kn0). split; [|done]. right.
        apply in_map_iff. by exists (kn0, DockerCompose.addServiceSpacing v0). }
    destruct Hr2 as (kn1 & Hin1 & Hv1).
    destruct (Forall2_In_l _ _ _ _ HF Hin1) as ([kn vn] & Hin2 & Hk2 & Hw2).
    simpl in Hk2, Hw2. subst kn. rewrite Hv1 in Hw2.
    exists kn1, vn. split; [done|]. split; [done|].
    destruct f as [|f]; [done|].
    assert (Hks : Kind (DockerCompose.addServiceSpacing v0) = MappingNode)
      by (by rewrite addServiceSpacing_kind).
    destruct (dc_walk_mapping f _ false "services" vn Hks Hw2)
      as (n2 & ps2 & ps2' & Hs2 & Hp2 & HF2 & ->).
    destruct (dc_sort_spec _ false n2 Hks Hs2) as (qs2 & _ & Hq2 & _ & _).
    destruct (addServiceSpacing_pairs_inv v0 qs2 Hq2) as [qs0 Hq0].
    destruct (services_sort_id v0 qs0 Hkv Hq0) as (ps0 & _ & _ & _ & Hid).
    rewrite Hid in Hs2. injection Hs2 as Hn2. subst n2.
    rewrite (addServiceSpacing_pairs v0 qs0 Hkv Hq0) in Hp2. injection Hp2 as <-.
    unfold mapKeys, mapPairs. simpl. rewrite pairs_of_unpairs, Hq0.
    eapply map_fst_Forall2; [|done]. by intros ? ? [? _].
Qed.

(** Witness of [spacing_injection] on a compose file with a [version]
    key and two services. *)
Lemma spacing_injection_witness :
  exists d', DockerCompose.formatNode compose_input true = Some d' /\
  ((forall h, starts_with_nl (spaced_head h) = true) /\
   exists top', Content d' = top' :: [] /\
    (forall kn, mapKeys top' !! 0%nat = Some kn -> In kn (mapKeys (Examples.map_ [sc "version"; sc "3";
             sc "services"; map_ [sc "web"; map_ [sc "image"; sc "nginx"];
                                 sc "db"; map_ [sc "image"; sc "postgres"]]]))) /\ True).
Proof.
  eexists. split; [vm_compute; reflexivity|].
  destruct (spacing_injection compose_input _ _ [] ltac:(vm_compute; reflexivity)
              eq_refl eq_refl eq_refl) as [H1 (top' & H2 & H3 & _ & _)].
  split; [exact H1|]. exists top'. split; [exact H2|]. split; [exact H3|exact I].
Defined.

(** C1: formatting is not idempotent. On the compose file
    [services: {web: {environment: ["B=x", "A=z"]}}] the first run turns
    the environment list into the mapping [B: x, A: z] (first-seen order,
    after the sort of that level has already happened), and the second
    run sorts it to [A: z, B: x]. [c1_once] is also the tree the parser
    gives for the first output, so [Format(Format(D))] differs from
    [Format(D)]. *)
Theorem format_not_idempotent :
  DockerCompose.formatNode c1_input true = Some c1_once /\
  DockerCompose.formatNode c1_once true = Some c1_twice /\
  c1_once <> c1_twice.
Proof.
  split; [vm_compute; reflexivity|]. split; [vm_compute; reflexivity|].
  unfold c1_once, c1_twice. intros H. injection H as H. discriminate.
Qed.

(** C2: the rank of a key depends on the key and on whether its mapping
    is the root, not on the enclosing key: in Traefik, [middlewares]
    takes the router table's rank 6 also directly under [http], whose
    own table ranks it 3 (before [serversTransports], 4); the walk of
    [c2_input] puts [serversTransports] before [middlewares] under
    [http]. *)
Theorem context_rank_ignored :
  lookup_tbl Traefik.httpOrder "middlewares" = Some 3%Z /\
  lookup_tbl Traefik.httpOrder "serversTransports" = Some 4%Z /\
  lookup_tbl Traefik.routerOrder "middlewares" = Some 6%Z /\
  Traefik.getKeyOrder "middlewares" false = 6%Z /\
  Traefik.getKeyOrder "serversTransports" false = 4%Z /\
  second_level_keys (Traefik.formatNode c2_input true) =
    Some [["routers"; "serversTransports"; "middlewares"]].
Proof. repeat split; vm_compute; reflexivity. Qed.

(** C3: the comparator is no strict weak order once a comment is
    involved, and Go's stable sort then moves an uncommented pair in
    front of a commented one that came before it. In [c3_input] (21
    pairs, kP at index 15 with a head comment, [image] at index 20
    without one) the sort puts [image] first, ahead of kP. *)
Theorem comment_freeze_broken :
  keyNames c3_input !! 15%nat = Some "kP" /\
  keyNames c3_input !! 20%nat = Some "image" /\
  hasComment (set_HeadComment (sc "kP") "# c") (sc "v") = true /\
  hasComment (sc "image") (sc "nginx") = false /\
  option_map keyNames (DockerCompose.sortMappingNode c3_input false) =
    Some ["image"; "kA"; "kB"; "kC"; "kD"; "kE"; "kF"; "kG"; "kH"; "kI"; "kJ";
          "kK"; "kL"; "kM"; "kN"; "kO"; "kP"; "kQ"; "kR"; "kS"; "kT"].
Proof. repeat split; vm_compute; reflexivity. Qed.

(** C5 (as the code has it): the docker-compose sorter returns a
    permutation of the mapping's pairs after two rewrites of its own:
    at the top level the value of [services] (a mapping) first gets
    the service spacing on its keys ([svcPair]), and after the sort
    every top-level key but the first gets the spacing rule
    ([spaceAfterFirst]). Below the top level the pairs are an exact
    permutation of the original ones. *)
Theorem sort_permutation node isTop node' :
  Kind node = MappingNode ->
  DockerCompose.sortMappingNode node isTop = Some node' ->
  exists qs rs, pairs_of (Content node) = Some qs /\
    rs ≡ₚ map (svcPair isTop) qs /\
    node' = set_Content node (unpairs (if isTop then spaceAfterFirst rs else rs)) /\
    (isTop = false -> rs ≡ₚ qs).
Proof.
  intros Hk Hs. destruct (dc_sort_spec node isTop node' Hk Hs) as (qs & rs & Hq & Hp & ->).
  exists qs, rs. repeat split; [done|done|]. intros ->. by rewrite Hp, map_svcPair_false.
Qed.

Lemma sort_permutation_witness :
  exists n', DockerCompose.sortMappingNode c5_input true = Some n' /\
  exists qs rs, pairs_of (Content c5_input) = Some qs /\
    rs ≡ₚ map (svcPair true) qs /\
    n' = set_Content c5_input (unpairs (spaceAfterFirst rs)) /\ (true = false -> rs ≡ₚ qs).
Proof.
  eexists. split; [vm_compute; reflexivity|].
  exact (sort_permutation c5_input true _ eq_refl ltac:(vm_compute; reflexivity)).
Defined.

(** C5 fails as stated: sorting the top-level mapping [services: {a: x,
    b: y}] changes the value subtree of [services] (key [b] gets a
    newline head comment), so the output pairs are no permutation of
    the input pairs. *)
Lemma sort_permutation_counterexample :
  exists n', DockerCompose.sortMappingNode c5_input true = Some n' /\
    ~ (mapPairs n' ≡ₚ mapPairs c5_input).
Proof.
  eexists. split; [vm_compute; reflexivity|].
  vm_compute. intros H. apply Permutation_length_1 in H. discriminate H.
Qed.

(** C7: under a [ports] key the walk first normalises the node: a
    sequence has every scalar item retagged [!!str] and styled
    double-quoted (everything else of the item kept), other items kept;
    a node that is not a sequence is left as it is. The walk then goes
    on into the items, and a scalar item comes out of it unchanged. *)
Theorem ports_normalization node :
  (Kind node <> SequenceNode -> DockerCompose.normalizeValues node "ports" = node) /\
  (Kind node = SequenceNode ->
     exists c', DockerCompose.normalizeValues node "ports" = set_Content node c' /\
       Forall2 (fun x x' =>
         (Kind x = ScalarNode ->
            x' = mkNode ScalarNode DoubleQuotedStyle "!!str" (Value x) (HeadComment x)
                   (LineComment x) (FootComment x) (Content x)) /\
         (Kind x <> ScalarNode -> x' = x)) (Content node) c') /\
  (forall f out, Kind node <> MappingNode ->
     DockerCompose.formatNodeWithContext (S f) node false "ports" = Some out ->
     exists c', out = set_Content (DockerCompose.normalizeValues node "ports") c' /\
       Forall2 (fun x x' => DockerCompose.formatNodeWithContext f x false "ports" = Some x')
         (Content (DockerCompose.normalizeValues node "ports")) c') /\
  (forall f x, Kind x = ScalarNode -> Content x = [] ->
     DockerCompose.formatNodeWithContext (S f) x false "ports" = Some x).
Proof.
  split; [|split; [|split]].
  - apply normalizeValues_nonseq.
  - intros Hk. exists (map DockerCompose.quotePort (Content node)). split.
    + unfold DockerCompose.normalizeValues, DockerCompose.normalizePorts. cbn.
      by rewrite Hk.
    + apply Forall2_fmap_r, Forall_Forall2_diag, Forall_forall. intros x _.
      unfold DockerCompose.quotePort. split.
      * intros Hx. by rewrite Hx.
      * intros Hx. destruct (NodeKind_eqb (Kind x) ScalarNode) eqn:E; [|done].
        by apply NodeKind_eqb_eq in E.
  - intros f out. apply dc_walk_ports.
  - intros f x. apply dc_walk_scalar.
Qed.

(** C9: once [addServiceSpacing] has run on a services mapping, every
    pair but the first is comment-bearing for the sorter, Go's stable
    sort leaves the pair list as it is, and the walk's sort of the
    services mapping gives it back unchanged: the services keep their
    original order. *)
Theorem services_pinned v0 qs0 :
  Kind v0 = MappingNode -> pairs_of (Content v0) = Some qs0 ->
  exists ps, DockerCompose.buildPairs false 0 (Content (DockerCompose.addServiceSpacing v0)) = Some ps /\
    (forall n p, ps !! n = Some p -> (1 <= n)%nat -> p_hasComment p = true) /\
    GoSort.stable less ps = ps /\
    DockerCompose.sortMappingNode (DockerCompose.addServiceSpacing v0) false =
      Some (DockerCompose.addServiceSpacing v0).
Proof. apply services_sort_id. Qed.

Lemma services_pinned_witness :
  exists ps, DockerCompose.buildPairs false 0
      (Content (DockerCompose.addServiceSpacing (map_ [sc "web"; map_ []; sc "db"; map_ []]))) = Some ps /\
    (forall n p, ps !! n = Some p -> (1 <= n)%nat -> p_hasComment p = true) /\
    GoSort.stable less ps = ps /\
    DockerCompose.sortMappingNode
      (DockerCompose.addServiceSpacing (map_ [sc "web"; map_ []; sc "db"; map_ []])) false =
      Some (DockerCompose.addServiceSpacing (map_ [sc "web"; map_ []; sc "db"; map_ []])).
Proof.
  apply (services_pinned (map_ [sc "web"; map_ []; sc "db"; map_ []])
           [(sc "web", map_ []); (sc "db", map_ [])]); vm_compute; reflexivity.
Defined.

(** C10: the Traefik walk keeps every node's kind, style, tag, value and
    comments and every non-mapping child list; it only permutes mapping
    entries and, on the root mapping, puts key head comments through the
    spacing rule ([RS]). *)
Theorem traefik_value_preserving d d' :
  Traefik.formatNode d true = Some d' -> RS true d d'.
Proof. apply traefik_walk_RS. Qed.

Lemma traefik_value_preserving_witness :
  exists d', Traefik.formatNode traefik_input true = Some d' /\ RS true traefik_input d'.
Proof.
  eexists. split; [vm_compute; reflexivity|].
  apply (traefik_value_preserving traefik_input). vm_compute. reflexivity.
Defined.

(** C4: in the docker-compose root table [services] has the sentinel
    rank 1000 itself, so every key that no table has ties with it and
    the tie is broken by key text. Formatting [c4_input] gives the root
    keys [aaa], [services], [x-common]: the unknown key [aaa] sorts
    before the known key [services], and [services] is not last. *)
Theorem unknown_key_rank :
  lookup_tbl DockerCompose.topLevelOrder "services" = Some 1000%Z /\
  (forall k, Forall (fun t => lookup_tbl t k = None) (dc_tables true) ->
     DockerCompose.getKeyOrder k true = DockerCompose.getKeyOrder "services" true) /\
  Forall (fun t => lookup_tbl t "aaa" = None) (dc_tables true) /\
  Forall (fun t => lookup_tbl t "x-common" = None) (dc_tables true) /\
  option_map (fun d => match Content d with c :: _ => keyNames c | [] => [] end)
    (DockerCompose.formatNode c4_input true) = Some ["aaa"; "services"; "x-common"].
Proof.
  split; [vm_compute; reflexivity|]. split.
  - intros k Hk. rewrite dc_getKeyOrder_hit. apply first_hit_None in Hk. rewrite Hk.
    vm_compute. reflexivity.
  - repeat split; vm_compute; repeat constructor.
Qed.

(** C6 (as the code has it): under an [environment] key a node that is
    not a sequence is kept; a sequence whose scalar items all fail
    [parseEnvVar] is kept; otherwise it becomes a mapping (the node's
    value and comments kept) of the parsed keys in first-seen order,
    each with the value of its last entry. [parseEnvVar] splits at the
    first ['='] and refuses an empty key. A value is double-quoted
    exactly when [quote_needed] holds, whose whitespace test is a space
    or a tab only. *)
Theorem env_normalization node :
  (Kind node <> SequenceNode -> DockerCompose.normalizeValues node "environment" = node) /\
  (Kind node = SequenceNode -> parsedItems (Content node) = [] ->
     DockerCompose.normalizeValues node "environment" = node) /\
  (Kind node = SequenceNode -> parsedItems (Content node) <> [] ->
     DockerCompose.normalizeValues node "environment" =
       mkNode MappingNode 0%N "!!map" (Value node) (HeadComment node)
         (LineComment node) (FootComment node)
         (flat_map (fun key => [DockerCompose.envKeyNode key;
              DockerCompose.envValueNode (default "" (last_value (parsedItems (Content node)) key))])
            (first_seen (map fst (parsedItems (Content node)))))) /\
  (forall s k v, DockerCompose.parseEnvVar s = Some (k, v) <->
     k <> "" /\ s = String.append k (String "="%char v) /\
     ~ In "="%char (list_ascii_of_string k)) /\
  (forall v, NStyle (DockerCompose.envValueNode v) =
     (if DockerCompose.shouldQuoteValue v then DoubleQuotedStyle else 0%N)) /\
  (forall v, DockerCompose.shouldQuoteValue v = true <-> quote_needed v).
Proof.
  assert (Hn : DockerCompose.normalizeValues node "environment" =
               DockerCompose.normalizeEnvironment node) by reflexivity.
  rewrite Hn, normalizeEnvironment_spec.
  split; [|split; [|split; [|split; [|split]]]].
  - intros Hk. destruct (NodeKind_eqb (Kind node) SequenceNode) eqn:E; [|done].
    by apply NodeKind_eqb_eq in E.
  - intros Hk Hp. rewrite Hk, Hp. done.
  - intros Hk Hp. rewrite Hk. cbn [NodeKind_eqb negb].
    by destruct (parsedItems (Content node)).
  - apply parseEnvVar_spec.
  - done.
  - apply shouldQuoteValue_spec.
Qed.

(** C6 fails as stated: a value with a line feed in it contains
    whitespace, yet it is not one the code quotes, and the environment
    entry comes out with the plain style. *)
Lemma env_normalization_counterexample :
  In (ascii_of_nat 10) (list_ascii_of_string c6_value) /\
  DockerCompose.shouldQuoteValue c6_value = false /\
  DockerCompose.normalizeValues c6_input "environment" = map_ [sc "A"; sc c6_value].
Proof. split; [vm_compute; right; left; reflexivity|]. split; vm_compute; reflexivity. Qed.

End Claims.

(* ================================================================= *)
(** * Further properties of the code *)
(* ================================================================= *)

Module Extras.
Import CleanLines CleanFacts Detect DetectFacts SortFacts WalkFacts EnvFacts MoreFacts.
Local Open Scope list_scope.

(** X1: [cleanEmptyLines] is idempotent: cleaning its own output
    changes nothing. *)
Theorem cleanEmptyLines_idempotent d :
  cleanEmptyLines (cleanEmptyLines d) = cleanEmptyLines d.
Proof.
  rewrite (clean_lines d).
  pose proof (clean_lines_no_nl d) as Hn.
  pose proof (dropLeading_head (Split d)) as Hh.
  destruct (dropLeading (Split d)) as [|x rest] eqn:E; [reflexivity|].
  rewrite clean_lines, Split_Join by done.
  rewrite dropLeading_nonblank.
  - rewrite map_map. f_equal. apply map_ext, clearLine_idem.
  - intros y ys [= <- _]. rewrite clearLine_blank. by eapply Hh.
Qed.

(** X2: the output of [cleanEmptyLines], read as lines, is empty or
    starts with a non-blank line; each blank line of it is empty; and its
    non-blank lines are those of the input, in the same order. *)
Theorem cleanEmptyLines_lines d :
  (cleanEmptyLines d = [] \/
     exists x rest, Split (cleanEmptyLines d) = x :: rest /\ isSpaceOnly x = false) /\
  (forall l, In l (Split (cleanEmptyLines d)) -> isSpaceOnly l = true -> l = []) /\
  List.filter (fun l => negb (isSpaceOnly l)) (Split (cleanEmptyLines d)) =
  List.filter (fun l => negb (isSpaceOnly l)) (Split d).
Proof.
  rewrite (clean_lines d).
  pose proof (clean_lines_no_nl d) as Hn.
  pose proof (dropLeading_head (Split d)) as Hh.
  pose proof (filter_dropLeading (Split d)) as Hf.
  pose proof (proj1 (dropLeading_nil (Split d))) as Hz.
  destruct (dropLeading (Split d)) as [|x rest] eqn:E.
  - cbn. split; [by left|]. split; [intros l [<-|[]] _; done|].
    specialize (Hz eq_refl). rewrite <- Hf. done.
  - rewrite Split_Join by done. split; [|split].
    + right. exists (clearLine x), (map clearLine rest). split; [done|].
      rewrite clearLine_blank. by eapply Hh.
    + intros l Hl Hb. apply in_map_iff in Hl as (y & <- & _). by apply clearLine_blank_nil.
    + by rewrite filter_clearLine.
Qed.

(** X3: [cleanEmptyLines] returns nothing exactly when every line of
    the input is blank. *)
Theorem cleanEmptyLines_empty d :
  cleanEmptyLines d = [] <-> Forall (fun l => isSpaceOnly l = true) (Split d).
Proof.
  rewrite (clean_lines d), <- dropLeading_nil.
  pose proof (dropLeading_head (Split d)) as Hh.
  destruct (dropLeading (Split d)) as [|x rest] eqn:E; [done|].
  split; [|done]. intros HJ. exfalso.
  specialize (Hh x rest eq_refl).
  destruct (Join_nil _ HJ) as [H|H]; [done|].
  injection H as Hx _. rewrite <- clearLine_blank, Hx in Hh. done.
Qed.

(** X4: [DockerComposeFormatter.CanHandle] holds exactly when the file
    name contains "docker-compose" or "compose.", or the parsed document's
    root mapping has a key "services" or "version"; the two HasSuffix
    tests never decide anything. *)
Theorem dcCanHandle_spec f r :
  dcCanHandle f r = true <->
  contains f "docker-compose" = true \/ contains f "compose." = true \/ rootKey isComposeKey r.
Proof.
  rewrite dcCanHandle_contains, !orb_true_iff, rootKeysMatch_spec. unfold rootKey. tauto.
Qed.

(** X5: [TraefikFormatter.CanHandle] holds exactly when the file name
    contains "traefik" or the parsed document's root mapping has one of
    the Traefik section keys. *)
Theorem traefikCanHandle_spec f r :
  traefikCanHandle f r = true <-> contains f "traefik" = true \/ rootKey isTraefikKey r.
Proof.
  unfold traefikCanHandle, rootKey. rewrite <- rootKeysMatch_spec.
  destruct (contains f "traefik"); cbn; [split; [by left|done]|]. split; [by right|]. by intros [?|?].
Qed.

(** X6: a file whose name contains "compose." is handed to the
    docker-compose formatter whatever its content, a Traefik
    configuration included. *)
Theorem autoDetect_name_wins f r :
  contains f "compose." = true -> autoDetect f r = Some "docker-compose".
Proof.
  intros H. unfold autoDetect. rewrite dcCanHandle_contains, H. by rewrite orb_true_r.
Qed.

(** X7: when the input does not parse, auto-detection goes by the file
    name alone. *)
Theorem autoDetect_parse_failure f :
  autoDetect f None =
  if contains f "docker-compose" || contains f "compose." then Some "docker-compose"
  else if contains f "traefik" then Some "traefik" else None.
Proof.
  unfold autoDetect. rewrite dcCanHandle_contains. cbn [rootKeysMatch].
  rewrite orb_false_r. unfold traefikCanHandle. cbn [rootKeysMatch].
  by destruct (contains f "traefik"), (_ || _).
Qed.

(** X8: a document whose root mapping has a "services" or "version"
    key is detected as docker-compose, whatever the file name. *)
Theorem autoDetect_compose_keys f r :
  rootKey isComposeKey r -> autoDetect f r = Some "docker-compose".
Proof.
  intros H. unfold autoDetect. by rewrite (proj2 (dcCanHandle_spec f r) (or_intror (or_intror H))).
Qed.

(** X9: auto-detection fails exactly when the file name contains none
    of "docker-compose", "compose." and "traefik" and the root mapping
    has none of the keys either formatter looks for. *)
Theorem autoDetect_none f r :
  autoDetect f r = None <->
  contains f "docker-compose" = false /\ contains f "compose." = false /\
  contains f "traefik" = false /\ ~ rootKey isComposeKey r /\ ~ rootKey isTraefikKey r.
Proof.
  unfold autoDetect.
  destruct (dcCanHandle f r) eqn:Hd; [split; [done|]|].
  - intros (H1 & H2 & _ & H4 & _). apply dcCanHandle_spec in Hd. rewrite H1, H2 in Hd.
    destruct Hd as [?|[?|?]]; done.
  - destruct (traefikCanHandle f r) eqn:Ht; [split; [done|]|].
    + intros (_ & _ & H3 & _ & H5). apply traefikCanHandle_spec in Ht. rewrite H3 in Ht.
      destruct Ht; done.
    + split; [intros _|done].
      assert (~ dcCanHandle f r = true) as Hd' by congruence.
      assert (~ traefikCanHandle f r = true) as Ht' by congruence.
      rewrite dcCanHandle_spec in Hd'. rewrite traefikCanHandle_spec in Ht'.
      repeat split; try tauto; apply not_true_is_false; tauto.
Qed.


(** X10: the docker-compose [sortMappingNode] fails (Go panics on
    [node.Content[i+1]]) exactly on a mapping with an odd number of
    children. *)
Theorem dc_sortMappingNode_none n top :
  DockerCompose.sortMappingNode n top = None <->
  Kind n = MappingNode /\ Nat.odd (length (Content n)) = true.
Proof.
  unfold DockerCompose.sortMappingNode.
  destruct (NodeKind_eqb (Kind n) MappingNode) eqn:Hk; cbn [negb orb].
  - apply NodeKind_eqb_eq in Hk.
    destruct (Nat.eqb (length (Content n)) 0) eqn:Hl.
    + apply Nat.eqb_eq in Hl. rewrite Hl. split; [done|]. by intros [_ ?].
    + destruct (pairs_of (Content n)) as [qs|] eqn:Hp.
      * destruct (dc_buildPairs_some top (Content n) 0 qs Hp) as (ps & -> & _).
        split; [done|]. intros [_ Ho]. apply pairs_of_None_odd in Ho. congruence.
      * rewrite dc_buildPairs_none by done. split; [intros _|done].
        split; [done|]. by apply pairs_of_None_odd.
  - split; [done|]. intros [Hk' _]. by rewrite Hk' in Hk.
Qed.

(** X11: the same holds for the Traefik [sortMappingNode]. *)
Theorem traefik_sortMappingNode_none n top :
  Traefik.sortMappingNode n top = None <->
  Kind n = MappingNode /\ Nat.odd (length (Content n)) = true.
Proof.
  unfold Traefik.sortMappingNode.
  destruct (NodeKind_eqb (Kind n) MappingNode) eqn:Hk; cbn [negb orb].
  - apply NodeKind_eqb_eq in Hk.
    destruct (Nat.eqb (length (Content n)) 0) eqn:Hl.
    + apply Nat.eqb_eq in Hl. rewrite Hl. split; [done|]. by intros [_ ?].
    + destruct (pairs_of (Content n)) as [qs|] eqn:Hp.
      * destruct (traefik_buildPairs_some top (Content n) 0 qs Hp) as (ps & -> & _).
        split; [done|]. intros [_ Ho]. apply pairs_of_None_odd in Ho. congruence.
      * rewrite traefik_buildPairs_none by done. split; [intros _|done].
        split; [done|]. by apply pairs_of_None_odd.
  - split; [done|]. intros [Hk' _]. by rewrite Hk' in Hk.
Qed.

(** X12: [addServiceSpacing] is idempotent: a second pass adds no
    further newline to any head comment. *)
Theorem addServiceSpacing_idempotent v :
  DockerCompose.addServiceSpacing (DockerCompose.addServiceSpacing v) =
  DockerCompose.addServiceSpacing v.
Proof.
  destruct (negb (NodeKind_eqb (Kind v) MappingNode) || Nat.eqb (length (Content v)) 0) eqn:E.
  - assert (H : DockerCompose.addServiceSpacing v = v)
      by (unfold DockerCompose.addServiceSpacing; by rewrite E).
    by rewrite H.
  - assert (H : DockerCompose.addServiceSpacing v =
                set_Content v (DockerCompose.spaceKeysFrom 0 (Content v)))
      by (unfold DockerCompose.addServiceSpacing; by rewrite E).
    rewrite H. unfold DockerCompose.addServiceSpacing at 1.
    destruct v as [kd st tg vl h lc fc c]. cbn [set_Content Kind Content] in *.
    rewrite spaceKeysFrom_length, E. unfold set_Content. cbn. by rewrite spaceKeysFrom_idem.
Qed.

(** X13: [normalizeEnvironment] is idempotent. *)
Theorem normalizeEnvironment_idempotent n :
  DockerCompose.normalizeEnvironment (DockerCompose.normalizeEnvironment n) =
  DockerCompose.normalizeEnvironment n.
Proof.
  rewrite (normalizeEnvironment_spec n).
  destruct (NodeKind_eqb (Kind n) SequenceNode) eqn:Hk; cbn [negb].
  - destruct (parsedItems (Content n)) as [|kv P] eqn:HP.
    + by rewrite normalizeEnvironment_spec, Hk, HP.
    + by rewrite normalizeEnvironment_spec.
  - by rewrite normalizeEnvironment_spec, Hk.
Qed.

(** X14: when [normalizeEnvironment] turns a sequence into a mapping,
    the keys of that mapping are pairwise distinct. *)
Theorem normalizeEnvironment_keys_NoDup n :
  Kind n = SequenceNode -> Kind (DockerCompose.normalizeEnvironment n) = MappingNode ->
  NoDup (keyNames (DockerCompose.normalizeEnvironment n)).
Proof.
  intros Hk. rewrite normalizeEnvironment_spec, Hk. cbn [NodeKind_eqb negb].
  destruct (parsedItems (Content n)) as [|kv P] eqn:HP; [by rewrite Hk|].
  intros _. unfold keyNames, mapKeys, mapPairs. cbn [Content].
  rewrite (env_pairs_of (fun key => default "" (last_value (kv :: P) key))).
  rewrite !map_map. rewrite (map_ext _ (fun x => x)) by done. rewrite map_id.
  apply first_seen_NoDup.
Qed.

(** X15: [parseEnvVar] splits [key ++ "=" ++ value] back into [key]
    and [value] when [key] is non-empty and has no '='; [value] may
    contain '='. *)
Theorem parseEnvVar_roundtrip k v :
  k <> "" -> ~ In "="%char (list_ascii_of_string k) ->
  DockerCompose.parseEnvVar (String.append k (String "="%char v)) = Some (k, v).
Proof. intros Hk Hn. by apply parseEnvVar_spec. Qed.

(** X16: [parseEnvVar] fails exactly on a string without '=' or one
    starting with '='. *)
Theorem parseEnvVar_none s :
  DockerCompose.parseEnvVar s = None <->
  ~ In "="%char (list_ascii_of_string s) \/ exists v, s = String "="%char v.
Proof.
  unfold DockerCompose.parseEnvVar.
  destruct (DockerCompose.split_first_eq s) as [[k v]|] eqn:E.
  - apply split_first_eq_spec in E as [Hs Hn].
    destruct (String.eqb k "") eqn:Hk.
    + apply String.eqb_eq in Hk. subst k. split; [intros _; right; by exists v|done].
    + apply String.eqb_neq in Hk. split; [done|]. intros [H|[v' H]].
      * exfalso. apply H. rewrite Hs. apply In_eq_append.
      * rewrite Hs in H. destruct k as [|c k]; [done|]. rewrite append_cons' in H.
        injection H as Hc _. exfalso. apply Hn. by left.
  - apply split_first_eq_None in E. split; [intros _; by left|done].
Qed.

(** X17: a value of 1 to 18 decimal digits is always quoted (it parses
    with [strconv.ParseInt]). *)
Theorem shouldQuoteValue_digits s :
  s <> "" -> (String.length s <= 18)%nat ->
  Forall (fun c => StrConv.is_digit c = true) (list_ascii_of_string s) ->
  DockerCompose.shouldQuoteValue s = true.
Proof.
  intros Hne Hlen Hd. rewrite shouldQuoteValue_or.
  assert (Hn : DockerCompose.isNumericLike s = true).
  { unfold DockerCompose.isNumericLike, StrConv.ParseInt10_ok.
    rewrite <- list_ascii_length in Hlen.
    destruct (list_ascii_of_string s) as [|c r] eqn:E; [by destruct s|].
    inversion Hd as [|? ? Hc Hr]; subst.
    destruct (Ascii.eqb c "+"%char) eqn:E1; [apply Ascii.eqb_eq in E1; by subst c|].
    destruct (Ascii.eqb c "-"%char) eqn:E2; [apply Ascii.eqb_eq in E2; by subst c|].
    unfold StrConv.ParseUint10.
    destruct (digits_value_bounds (c :: r) 0%Z Hd ltac:(lia)) as (v & Hv & Hb).
    rewrite Hv. cbn [length] in *.
    assert (Hp : (10 ^ Z.of_nat (S (length r)) <= 10 ^ 18)%Z)
      by (apply Z.pow_le_mono_r; lia).
    assert (Hv0 : (v <=? 2 ^ 64 - 1)%Z = true) by (apply Z.leb_le; cbn in Hp |- *; lia).
    rewrite Hv0. apply orb_true_iff. left. apply Z.ltb_lt. cbn in Hp |- *. lia. }
  rewrite Hn, !orb_true_iff. left; left; left; right. done.
Qed.

(** X18: [normalizePorts] is idempotent. *)
Theorem normalizePorts_idempotent n :
  DockerCompose.normalizePorts (DockerCompose.normalizePorts n) = DockerCompose.normalizePorts n.
Proof.
  unfold DockerCompose.normalizePorts.
  destruct (NodeKind_eqb (Kind n) SequenceNode) eqn:Hk; cbn [negb]; [|by rewrite Hk].
  destruct n as [kd st tg vl h lc fc c]. unfold set_Content. cbn [Kind Content] in *.
  rewrite Hk. cbn [negb]. f_equal. rewrite map_map. apply map_ext. intros item.
  unfold DockerCompose.quotePort.
  destruct (NodeKind_eqb (Kind item) ScalarNode) eqn:Hs; [|by rewrite Hs].
  cbn [Kind]. by rewrite Hs.
Qed.

(** Witnesses: the theorems above with hypotheses, at concrete inputs. *)

Lemma autoDetect_name_wins_witness :
  contains "traefik.compose.yml" "compose." = true /\
  autoDetect "traefik.compose.yml" (Some (doc (map_ [sc "http"; map_ []]))) =
    Some "docker-compose".
Proof.
  assert (H : contains "traefik.compose.yml" "compose." = true) by reflexivity.
  split; [exact H|]. exact (autoDetect_name_wins _ _ H).
Defined.

Lemma autoDetect_compose_keys_witness :
  rootKey isComposeKey (Some (doc (map_ [sc "services"; map_ []]))) /\
  autoDetect "app.yml" (Some (doc (map_ [sc "services"; map_ []]))) = Some "docker-compose".
Proof.
  assert (H : rootKey isComposeKey (Some (doc (map_ [sc "services"; map_ []])))).
  { exists (doc (map_ [sc "services"; map_ []])), (map_ [sc "services"; map_ []]), [], 0%nat,
      (sc "services").
    repeat split. }
  split; [exact H|]. exact (autoDetect_compose_keys _ _ H).
Defined.

Lemma normalizeEnvironment_keys_NoDup_witness :
  Kind (seq_ [sc "A=1"; sc "B=x"; sc "A=2"]) = SequenceNode /\
  Kind (DockerCompose.normalizeEnvironment (seq_ [sc "A=1"; sc "B=x"; sc "A=2"])) = MappingNode /\
  NoDup (keyNames (DockerCompose.normalizeEnvironment (seq_ [sc "A=1"; sc "B=x"; sc "A=2"]))).
Proof.
  assert (H1 : Kind (seq_ [sc "A=1"; sc "B=x"; sc "A=2"]) = SequenceNode) by reflexivity.
  assert (H2 : Kind (DockerCompose.normalizeEnvironment (seq_ [sc "A=1"; sc "B=x"; sc "A=2"]))
               = MappingNode) by (vm_compute; reflexivity).
  split; [exact H1|]. split; [exact H2|]. exact (normalizeEnvironment_keys_NoDup _ H1 H2).
Defined.

Lemma parseEnvVar_roundtrip_witness :
  "KEY" <> "" /\ ~ In "="%char (list_ascii_of_string "KEY") /\
  DockerCompose.parseEnvVar (String.append "KEY" (String "="%char "a=b")) = Some ("KEY", "a=b").
Proof.
  assert (H1 : "KEY" <> "") by discriminate.
  assert (H2 : ~ In "="%char (list_ascii_of_string "KEY")).
  { cbn. intros [H|[H|[H|[]]]]; discriminate H. }
  split; [exact H1|]. split; [exact H2|]. exact (parseEnvVar_roundtrip _ _ H1 H2).
Defined.

Lemma shouldQuoteValue_digits_witness :
  "8080" <> "" /\ (String.length "8080" <= 18)%nat /\
  Forall (fun c => StrConv.is_digit c = true) (list_ascii_of_string "8080") /\
  DockerCompose.shouldQuoteValue "8080" = true.
Proof.
  assert (H1 : "8080" <> "") by discriminate.
  assert (H2 : (String.length "8080" <= 18)%nat) by (cbn; lia).
  assert (H3 : Forall (fun c => StrConv.is_digit c = true) (list_ascii_of_string "8080"))
    by (cbn; repeat constructor).
  split; [exact H1|]. split; [exact H2|]. split; [exact H3|].
  exact (shouldQuoteValue_digits _ H1 H2 H3).
Defined.

End Extras.
